(** * Verification model of chws_subset (src/chws_subset/__init__.py, __main__.py)

    The Python program is embedded as a state-and-error monad over a world
    made of the file system, the set of created directories and the lines
    printed or logged.  Python exceptions keep the effects performed before
    they are raised, so a computation returns the world in both cases. *)

From stdpp Require Import base gmap sets list strings pretty.
From Stdlib Require Import Ascii.

Open Scope Z_scope.

(** ** Paths (pathlib.Path): a path is the list of its components. *)

Abbreviation path := (list string).

(** [Path(p).name]: the last component, [""] for the empty path. *)
Definition name (p : path) : string := default "" (last p).

(** [Path(p) / s] for a component [s] that is not empty, not ["."] and has
    no '/': the string constants of the code and the member names. *)
Definition join (p : path) (s : string) : path := p ++ [s].

(** [Path(p) / s] for a string [s] without '/', such as a URL path segment:
    pathlib drops an empty or ["."] component, so [Path(p) / ""] and
    [Path(p) / "."] are [Path(p)]. *)
Definition join_name (p : path) (s : string) : path :=
  if bool_decide (s = "" \/ s = ".") then p else p ++ [s].

(** [Path(p).parent] *)
Definition parent (p : path) : path := removelast p.

(** The directories that [Path(p).parent.mkdir(parents=True)] creates:
    every non-empty prefix of the parent. *)
Definition ancestors (p : path) : list path :=
  map (fun k => take k (parent p)) (seq 1 (length (parent p))).

(** ** Fonts, as the structured representation of fontTools' TTFont. *)

Record axis := mkAxis {
  axisTag : string;
  minValue : Z;
  defaultValue : Z;
  maxValue : Z
}.

(** The 'VVAR' table; only its vertical-origin map is touched by the code. *)
Record vvar_table := mkVVAR { VOrgMap : option (list (Z * Z)) }.

(** A font: its cmap subtables (codepoint to glyph id), its optional 'fvar'
    axes, optional 'VORG' and 'VVAR' tables, and its 'name' records. *)
Record font := mkFont {
  cmap_tables : list (gmap Z Z);
  fvar : option (list axis);
  VORG : option (list (Z * Z));
  VVAR : option vvar_table;
  name_records : list string
}.

(** A file on disk: a single font (an sfnt, which does not start with
    [ttcf]), a font collection (which does), or raw bytes. *)
Inductive file :=
  | FontFile (f : font)
  | CollectionFile (fs : list font)
  | RawFile (bytes : list Z).

(** [f.read(4) == b"ttcf"] *)
Definition ttcf_tag : list Z := [116; 116; 99; 102].

Definition starts_with_ttcf (c : file) : bool :=
  match c with
  | FontFile _ => false
  | CollectionFile _ => true
  | RawFile b => bool_decide (take 4 b = ttcf_tag)
  end.

(** ** The world and the monad *)

Inductive event :=
  | Print (tag : string) (p : path)       (** [print(f"  TAG\t{p}")] *)
  | LogError (url : string)               (** [logging.error(...)] *)
  | Shutdown                              (** [executor.shutdown()] *)
  | Rmtree (p : path).                    (** [shutil.rmtree(p)] *)

Record world := mkWorld {
  files : gmap path file;
  dirs : gset path;
  out : list event
}.

Inductive exc :=
  | FileNotFoundError (p : path)
  | KeyError (tag : string)
  | IndexError (i : nat)
  | DecodeError (p : path).

Definition M (A : Type) : Type := world -> (exc + A) * world.

Definition ret {A} (x : A) : M A := fun w => (inr x, w).
Definition bind {A B} (m : M A) (k : A -> M B) : M B :=
  fun w => match m w with
           | (inl e, w') => (inl e, w')
           | (inr x, w') => k x w'
           end.
Definition raise {A} (e : exc) : M A := fun w => (inl e, w).

Notation "x <-- m ;; k" := (bind m (fun x => k))
  (at level 100, m at next level, right associativity).
Notation "m ;;; k" := (bind m (fun _ => k))
  (at level 100, right associativity).

Definition emit (e : event) : M unit :=
  fun w => (inr tt, mkWorld (files w) (dirs w) (out w ++ [e])).

Definition print (tag : string) (p : path) : M unit := emit (Print tag p).

Definition read_file (p : path) : M file :=
  fun w => match files w !! p with
           | Some c => (inr c, w)
           | None => (inl (FileNotFoundError p), w)
           end.

Definition write_file (p : path) (c : file) : M unit :=
  fun w => (inr tt, mkWorld (<[p := c]> (files w)) (dirs w) (out w)).

(** [ensure_parent_dir] *)
Definition ensure_parent_dir (p : path) : M unit :=
  fun w => (inr tt, mkWorld (files w) (dirs w ∪ list_to_set (ancestors p)) (out w)).

(** [shutil.rmtree(p)]: removes [p] and everything beneath it;
    [FileNotFoundError] when the directory does not exist. *)
Definition rmtree (p : path) : M unit :=
  fun w =>
    if bool_decide (p ∈ dirs w) then
      (inr tt, mkWorld (filter (fun kv => ¬ prefix p kv.1) (files w))
                       (filter (fun d => ¬ prefix p d) (dirs w))
                       (out w ++ [Rmtree p]))
    else (inl (FileNotFoundError p), w).

(** Awaiting a sequence of jobs: the first exception propagates. *)
Fixpoint run_all (l : list (M unit)) : M unit :=
  match l with
  | [] => ret tt
  | m :: l' => m ;;; run_all l'
  end.

(** [ttLib.TTFont(p)]: a single font file. *)
Definition load_ttfont (p : path) : M font :=
  c <-- read_file p ;;
  match c with
  | FontFile f => ret f
  | _ => raise (DecodeError p)
  end.

(** [ttLib.TTCollection(p)]: a collection file. *)
Definition load_ttcollection (p : path) : M (list font) :=
  c <-- read_file p ;;
  match c with
  | CollectionFile fs => ret fs
  | _ => raise (DecodeError p)
  end.

(** ** The Codepoint Exclusion Set (lines 18-64) *)

(** [EMOJI_IN_CJK] *)
Definition EMOJI_IN_CJK : gset Z := list_to_set
  [0x26BD; 0x26BE; 0x1F18E; 0x1F191; 0x1F192; 0x1F193; 0x1F194; 0x1F195;
   0x1F196; 0x1F197; 0x1F198; 0x1F199; 0x1F19A; 0x1F201; 0x1F21A; 0x1F22F;
   0x1F232; 0x1F233; 0x1F234; 0x1F235; 0x1F236; 0x1F238; 0x1F239; 0x1F23A;
   0x1F250; 0x1F251].

(** [ANDROID_EMOJI] *)
Definition ANDROID_EMOJI : gset Z := list_to_set
  [0x2600; 0x2601; 0x260E; 0x261D; 0x263A; 0x2660; 0x2663; 0x2665;
   0x2666; 0x270C; 0x2744; 0x2764].

(** [tool_utils.parse_int_ranges("lo-hi")] for one range of hexadecimal
    bounds: every integer from [lo] to [hi], both included. *)
Definition parse_int_range (lo hi : Z) : gset Z :=
  list_to_set (map (fun k => lo + Z.of_nat k) (seq 0 (Z.to_nat (hi - lo + 1)))).

(** [CONTROL_CHARS = set(tool_utils.parse_int_ranges("0000-001F"))] *)
Definition CONTROL_CHARS : gset Z := parse_int_range 0x0000 0x001F.

(** [EXCLUDED_CODEPOINTS = frozenset(sorted(EMOJI_IN_CJK | ANDROID_EMOJI | CONTROL_CHARS))] *)
Definition EXCLUDED_CODEPOINTS : gset Z :=
  EMOJI_IN_CJK ∪ ANDROID_EMOJI ∪ CONTROL_CHARS.

(** nototools' [font_data.delete_from_cmap(font, chars)]: for every cmap
    subtable and every [char] in [chars], [del table.cmap[char]] when the
    codepoint is mapped. *)
Definition delete_from_cmap (f : font) (chars : gset Z) : font :=
  mkFont (map (fun t => set_fold (fun c t' => delete c t') t chars) (cmap_tables f))
         (fvar f) (VORG f) (VVAR f) (name_records f).

(** ** The variable-font instancer

    fontTools' [instancer.instantiateVariableFont(font, {tag: (lo, def, hi)},
    inplace=True, updateFontNames=False)], restricted to what the code
    observes: the axis limits are clipped to the font's axis range
    ([AxisTriple.limitRangeAndPopulateDefaults]); an axis whose clipped
    minimum equals its clipped maximum is pinned and removed, and the 'fvar'
    table is dropped when every axis is pinned ([instantiateFvar]); an axis
    left with a range keeps it, with the new default.  When every axis is
    pinned (a full instance) the 'VVAR' table is dropped as well
    ([_instantiateVHVAR]); otherwise its vertical-origin map is kept as it
    was.  A tag absent from 'fvar' raises [KeyError] on the tag.  The other
    variation tables and the 'name' table are not represented. *)

Definition clip_triple (lim : Z * Z * Z) (a : axis) : Z * Z * Z :=
  let '(lo, def, hi) := lim in
  let lo' := Z.min (Z.max lo (minValue a)) (maxValue a) in
  let hi' := Z.min (Z.max hi (minValue a)) (maxValue a) in
  let def' := Z.max lo' (Z.min hi' def) in
  (lo', def', hi').

Definition pinned (lim : Z * Z * Z) (a : axis) : bool :=
  let '(lo', _, hi') := clip_triple lim a in bool_decide (lo' = hi').

Definition limit_axis (tag : string) (lim : Z * Z * Z) (a : axis) : list axis :=
  if bool_decide (axisTag a = tag) then
    if pinned lim a then []
    else let '(lo', def', hi') := clip_triple lim a in
         [mkAxis (axisTag a) lo' def' hi']
  else [a].

(** [instantiateFvar]: the axes left, or no 'fvar' table at all. *)
Definition instantiate_fvar (tag : string) (lim : Z * Z * Z) (axes : list axis)
    : option (list axis) :=
  match mjoin (map (limit_axis tag lim) axes) with
  | [] => None
  | axes' => Some axes'
  end.

Definition instantiateVariableFont (f : font) (tag : string) (lim : Z * Z * Z)
    : M font :=
  match fvar f with
  | None => raise (KeyError "fvar")
  | Some axes =>
      if bool_decide (tag ∈ map axisTag axes) then
        let fvar' := instantiate_fvar tag lim axes in
        ret (mkFont (cmap_tables f) fvar' (VORG f)
                    (match fvar' with None => None | Some _ => VVAR f end)
                    (name_records f))
      else raise (KeyError tag)
  end.

(** [del font['VORG']]: [KeyError] when the table is absent. *)
Definition del_VORG (f : font) : M font :=
  match VORG f with
  | None => raise (KeyError "VORG")
  | Some _ => ret (mkFont (cmap_tables f) (fvar f) None (VVAR f) (name_records f))
  end.

(** [font['VVAR'].table.VOrgMap = None]: [KeyError] when 'VVAR' is absent. *)
Definition clear_VOrgMap (f : font) : M font :=
  match VVAR f with
  | None => raise (KeyError "VVAR")
  | Some _ => ret (mkFont (cmap_tables f) (fvar f) (VORG f)
                          (Some (mkVVAR None)) (name_records f))
  end.

Section Pipeline.

(** The CHWS patch of [chws_tool.add_chws], an external collaborator. *)
Variable chws : font -> font.

(** [chws_tool.add_chws(in_ttf, out)]: reads a font, writes it patched. *)
Definition add_chws (in_ttf out : path) : M unit :=
  f <-- load_ttfont in_ttf ;;
  write_file out (FontFile (chws f)).

(** [process_ttf_worker(in_ttf, out_ttf, temp_dir)] (lines 71-96) *)
Definition process_ttf_worker (in_ttf out_ttf temp_dir : path) : M unit :=
  let chws_output := join (join temp_dir "intermediate_chws") (name in_ttf) in
  ensure_parent_dir chws_output ;;;
  print "ADD_CHWS" in_ttf ;;;
  add_chws in_ttf chws_output ;;;
  print "SUBSET" chws_output ;;;
  font <-- load_ttfont chws_output ;;
  let font := delete_from_cmap font EXCLUDED_CODEPOINTS in
  font <-- (match fvar font with
            | Some _ =>
                print "VFINST" chws_output ;;;
                font <-- del_VORG font ;;
                font <-- clear_VOrgMap font ;;
                instantiateVariableFont font "wght" (100, 400, 900)
            | None => ret font
            end) ;;
  print "TTF" out_ttf ;;;
  ensure_parent_dir out_ttf ;;;
  write_file out_ttf (FontFile font).

End Pipeline.

(** ** Fetcher (lines 99-125) *)

(** The final response of [client.stream("GET", url, follow_redirects=True)]. *)
Record response := mkResponse { status_code : Z; body : file }.

Section Fetch.

(** The remote side: the response served for each URL. *)
Variable server : string -> response.

(** [download_file(url, save_path_file_name, actx)]; the streamed chunks
    concatenate to the response body.  The gate [actx] is modelled with the
    concurrent runs below, see [Gate]. *)
Definition download_file (url : string) (save_path_file_name : path) : M bool :=
  print "FETCH" save_path_file_name ;;;
  let response := server url in
  if bool_decide (status_code response ≠ 200) then
    emit (LogError url) ;;; ret false
  else
    ensure_parent_dir save_path_file_name ;;;
    write_file save_path_file_name (body response) ;;;
    ret true.

End Fetch.

(** ** Collection codec (lines 128-161) *)

(** [Path(in_ttc).name + f"#{i}.ttf"] *)
Definition member_name (in_ttc : path) (i : nat) : string :=
  name in_ttc +:+ "#" +:+ pretty i +:+ ".ttf".

(** [unpack_ttc_worker(in_ttc, index, out_file)] *)
Definition unpack_ttc_worker (in_ttc : path) (index : nat) (out_file : path) : M unit :=
  print "UNTTC" out_file ;;;
  ttc <-- load_ttcollection in_ttc ;;
  match ttc !! index with
  | None => raise (IndexError index)
  | Some font =>
      ensure_parent_dir out_file ;;;
      write_file out_file (FontFile font)
  end.

(** [unpack_ttc(executor, in_ttc, out_dir)].  The jobs submitted to the
    executor run in the order [ord] chosen by the pool (each job only
    touches its own output file); [asyncio.gather] waits for all of them. *)
Definition unpack_ttc (ord : list nat) (in_ttc out_dir : path) : M (list path) :=
  print "UNTTC" in_ttc ;;;
  ttc <-- load_ttcollection in_ttc ;;
  let out_ttfs := map (fun i => join out_dir (member_name in_ttc i))
                      (seq 0 (length ttc)) in
  run_all (map (fun i => unpack_ttc_worker in_ttc i (join out_dir (member_name in_ttc i)))
               ord) ;;;
  ret out_ttfs.

(** The [for ttf in ttfs: ttc.fonts.append(ttLib.TTFont(ttf))] loop. *)
Fixpoint load_all (ttfs : list path) : M (list font) :=
  match ttfs with
  | [] => ret []
  | ttf :: rest => f <-- load_ttfont ttf ;; fs <-- load_all rest ;; ret (f :: fs)
  end.

(** [pack_ttc(ttfs, out_ttc)] *)
Definition pack_ttc (ttfs : list path) (out_ttc : path) : M unit :=
  print "TTC" out_ttc ;;;
  fonts <-- load_all ttfs ;;
  ensure_parent_dir out_ttc ;;;
  write_file out_ttc (CollectionFile fonts).

(** [is_ttc(file_path)] *)
Definition is_ttc (file_path : path) : M bool :=
  c <-- read_file file_path ;; ret (starts_with_ttcf c).

(** ** Orchestrator (lines 164-193 and __main__.py) *)

Section Orchestrator.

Variable chws : font -> font.
Variable server : string -> response.

(** [process_ttf(executor, in_ttf, out_ttf, temp_dir)] *)
Definition process_ttf (in_ttf out_ttf temp_dir : path) : M unit :=
  process_ttf_worker chws in_ttf out_ttf temp_dir.

(** The cooperative scheduler of [asyncio.gather] over the coroutines: each coroutine
    [i] awaits two executor jobs, [step i 0] then [step i 1]; the list
    [sched] says which coroutine is resumed next, [seen] the coroutines
    resumed so far. *)
Fixpoint run_sched (step : nat -> nat -> M unit) (seen sched : list nat) : M unit :=
  match sched with
  | [] => ret tt
  | i :: rest =>
      match count_occ Nat.eq_dec seen i with
      | 0%nat => step i 0%nat
      | 1%nat => step i 1%nat
      | _ => ret tt
      end ;;;
      run_sched step (i :: seen) rest
  end.

Definition input_ttf_path (temp_dir in_ttc : path) (i : nat) : path :=
  join (join temp_dir "input_ttf") (member_name in_ttc i).

Definition processed_ttf_path (temp_dir in_ttc : path) (i : nat) : path :=
  join (join temp_dir "processed_ttf") (member_name in_ttc i).

(** [unpack_and_process_ttf(in_ttc, index, ttf_out)], one job per step. *)
Definition unpack_and_process_step (in_ttc temp_dir : path) (i step : nat) : M unit :=
  match step with
  | 0%nat => unpack_ttc_worker in_ttc i (input_ttf_path temp_dir in_ttc i)
  | _ => process_ttf (input_ttf_path temp_dir in_ttc i)
                     (processed_ttf_path temp_dir in_ttc i) temp_dir
  end.

(** [process_ttc(executor, in_ttc, out_ttc, temp_dir)] *)
Definition process_ttc (sched : list nat) (in_ttc out_ttc temp_dir : path) : M unit :=
  ttc <-- load_ttcollection in_ttc ;;
  let out_ttfs := map (processed_ttf_path temp_dir in_ttc) (seq 0 (length ttc)) in
  run_sched (unpack_and_process_step in_ttc temp_dir) [] sched ;;;
  pack_ttc out_ttfs out_ttc.

(** [process_font(executor, in_font, out_font, temp_dir)]; [sched] gives
    the interleaving of the member coroutines of each collection. *)
Definition process_font (sched : path -> list nat) (in_font out_font temp_dir : path)
    : M unit :=
  b <-- is_ttc in_font ;;
  if b then process_ttc (sched in_font) in_font out_font temp_dir
  else process_ttf in_font out_font temp_dir.

End Orchestrator.

(** ** Entry point (__main__.py) *)

(** [urllib.parse.urlparse(url).path.split("/")[-1]]: the path ends at the
    first '?' or '#'; a scheme [letter (letter|digit|+|-|.)* ':'] is
    stripped, then a network location introduced by "//" up to the next
    '/'; the result is what follows the last '/' of the path. *)
Definition is_scheme_char (c : Ascii.ascii) : bool :=
  let n := Ascii.nat_of_ascii c in
  bool_decide ((65 <= n <= 90)%nat ∨ (97 <= n <= 122)%nat ∨ (48 <= n <= 57)%nat
               ∨ n = 43%nat ∨ n = 45%nat ∨ n = 46%nat).

Definition is_letter (c : Ascii.ascii) : bool :=
  let n := Ascii.nat_of_ascii c in
  bool_decide ((65 <= n <= 90)%nat ∨ (97 <= n <= 122)%nat).

Fixpoint take_until (p : Ascii.ascii -> bool) (s : list Ascii.ascii) : list Ascii.ascii :=
  match s with
  | [] => []
  | c :: s' => if p c then [] else c :: take_until p s'
  end.

Fixpoint drop_until (p : Ascii.ascii -> bool) (s : list Ascii.ascii) : list Ascii.ascii :=
  match s with
  | [] => []
  | c :: s' => if p c then s else drop_until p s'
  end.

Definition strip_scheme (s : list Ascii.ascii) : list Ascii.ascii :=
  let sch := take_until (fun c => bool_decide (c = ":"%char)) s in
  match sch, drop_until (fun c => bool_decide (c = ":"%char)) s with
  | c0 :: _, _ :: rest =>
      if is_letter c0 && forallb is_scheme_char sch then rest else s
  | _, _ => s
  end.

Definition strip_netloc (s : list Ascii.ascii) : list Ascii.ascii :=
  match s with
  | "/"%char :: "/"%char :: rest => drop_until (fun c => bool_decide (c = "/"%char)) rest
  | _ => s
  end.

Fixpoint last_segment (acc s : list Ascii.ascii) : list Ascii.ascii :=
  match s with
  | [] => acc
  | c :: s' => if bool_decide (c = "/"%char) then last_segment [] s'
               else last_segment (acc ++ [c]) s'
  end.

Definition url_basename (url : string) : string :=
  let s := String.list_ascii_of_string url in
  let s := take_until (fun c => bool_decide (c = "?"%char ∨ c = "#"%char)) s in
  String.string_of_list_ascii (last_segment [] (strip_netloc (strip_scheme s))).

(** [DEFAULT_DOWNLOADING_FONTS], in insertion order. *)
Definition DEFAULT_DOWNLOADING_FONTS : list (string * string) :=
  [("NotoSerifCJK-VF.otf.ttc",
    "https://github.com/notofonts/noto-cjk/raw/refs/heads/main/Serif/Variable/OTC/NotoSerifCJK-VF.otf.ttc");
   ("NotoSansCJK-VF.otf.ttc",
    "https://github.com/notofonts/noto-cjk/raw/refs/heads/main/Sans/Variable/OTC/NotoSansCJK-VF.otf.ttc")].

Definition installer_url : string :=
  "https://github.com/topjohnwu/Magisk/raw/master/scripts/module_installer.sh".

Definition installer_path : path :=
  ["META-INF"; "com"; "google"; "android"; "update-binary"].

(** [temp_dir = Path("temp")] *)
Definition temp_dir : path := ["temp"].

Section Main.

Variable chws : font -> font.
Variable server : string -> response.
Variable sched : path -> list nat.

(** [download_and_process_file(url)]: the result of [download_file] is not
    inspected. *)
Definition download_and_process_file (url : string) : M unit :=
  let base_file_name := url_basename url in
  let input_file := join_name (join temp_dir "input") base_file_name in
  download_file server url input_file ;;;
  process_font chws sched input_file (join_name ["system"; "fonts"] base_file_name) temp_dir.

(** The URL list and [build_module] chosen from [--url] ([if args.url:]
    is false for a missing or empty argument). *)
Definition urls_of (url_arg : option string) : list string * bool :=
  match url_arg with
  | Some u => if bool_decide (u = "") then (map snd DEFAULT_DOWNLOADING_FONTS, true)
              else ([u], false)
  | None => (map snd DEFAULT_DOWNLOADING_FONTS, true)
  end.

(** The awaitables passed to [asyncio.gather]. *)
Definition main_futures (url_arg : option string) : list (M unit) :=
  let '(urls, build_module) := urls_of url_arg in
  map download_and_process_file urls ++
  (if build_module then [download_file server installer_url installer_path ;;; ret tt]
   else []).

(** [main()]: [await asyncio.gather] over [main_futures], then [executor.shutdown()]
    and [shutil.rmtree(temp_dir)], with no [try]/[finally].  The chains are
    awaited one after the other: what follows the [gather] only depends on
    whether one of them raised. *)
Definition main (url_arg : option string) : M unit :=
  run_all (main_futures url_arg) ;;;
  emit Shutdown ;;;
  rmtree temp_dir.

End Main.

(** ** The download gate (asyncio.Semaphore(2), lines 223-239 and 103)

    Concurrent runs of the downloads of [main]: each download either enters
    [async with download_sem] (a gated download) or [async with nullcontext()]
    (an ungated one, [actx = None]).  The semaphore holds a counter; a gated
    download waits until it is positive, decrements it and transfers; leaving
    the [async with] block, normally or by an exception, increments it. *)
Module Gate.

Inductive phase := Waiting | Active | Finished.

Record task := mkTask { gated : bool; ph : phase }.

Record state := mkState { sem_value : nat; tasks : list task }.

Inductive step : state -> state -> Prop :=
  | step_acquire v l i :
      l !! i = Some (mkTask true Waiting) -> (0 < v)%nat ->
      step (mkState v l) (mkState (v - 1) (<[i := mkTask true Active]> l))
  | step_start_ungated v l i :
      l !! i = Some (mkTask false Waiting) ->
      step (mkState v l) (mkState v (<[i := mkTask false Active]> l))
  | step_finish v l i g :
      l !! i = Some (mkTask g Active) ->
      step (mkState v l)
           (mkState (if g then S v else v) (<[i := mkTask g Finished]> l)).

Inductive reachable (s0 : state) : state -> Prop :=
  | reach_refl : reachable s0 s0
  | reach_step s s' : reachable s0 s -> step s s' -> reachable s0 s'.

Definition is_active (t : task) : bool :=
  match ph t with Active => true | _ => false end.

Definition is_active_gated (t : task) : bool := gated t && is_active t.

(** Downloads in flight. *)
Definition active_downloads (s : state) : nat := length (List.filter is_active (tasks s)).

Definition ungated (t : task) : bool := negb (gated t).

Definition active_ungated (t : task) : bool := negb (gated t) && is_active t.

Definition active_gated_downloads (s : state) : nat :=
  length (List.filter is_active_gated (tasks s)).

(** The downloads [main] starts: one gated download per asset URL, and the
    ungated installer download when [build_module] holds. *)
Definition main_downloads (url_arg : option string) : list task :=
  let '(urls, build_module) := urls_of url_arg in
  map (fun _ => mkTask true Waiting) urls ++
  (if build_module then [mkTask false Waiting] else []).

Definition init (capacity : nat) (l : list task) : state := mkState capacity l.

End Gate.

(** ** The font the worker saves

    Lines 84-92 of [process_ttf_worker] without the prints: the font saved
    for a patched font [g], or the exception raised. *)
(** Where process_ttf_worker saves the patched intermediate font. *)
Definition chws_output_path (in_ttf temp_dir : path) : path :=
  join (join temp_dir "intermediate_chws") (name in_ttf).

Definition transform_result (g : font) : exc + font :=
  let g := delete_from_cmap g EXCLUDED_CODEPOINTS in
  match fvar g with
  | None => inr g
  | Some axes =>
      match VORG g, VVAR g with
      | None, _ => inl (KeyError "VORG")
      | Some _, None => inl (KeyError "VVAR")
      | Some _, Some _ =>
          if bool_decide ("wght" ∈ map axisTag axes) then
            let fvar' := instantiate_fvar "wght" (100, 400, 900) axes in
            inr (mkFont (cmap_tables g) fvar' None
                        (match fvar' with None => None | Some _ => Some (mkVVAR None) end)
                        (name_records g))
          else inl (KeyError "wght")
      end
  end.

(** The font file found at [p] after a run that returned normally. *)
Definition output_font {A} (r : (exc + A) * world) (p : path) : option font :=
  match r with
  | (inr _, w) => match files w !! p with Some (FontFile h) => Some h | _ => None end
  | (inl _, _) => None
  end.

(** The files and log lines produced by the member coroutines of a
    collection at [in_ttc] resumed so far ([seen]), when member [i] is [f]
    and transforms to [h]: its input is unpacked after its first step, its
    output written and printed after its second. *)
Definition sched_inv (in_ttc tmp : path) (fonts hs : list font)
    (seen : list nat) (w : world) : Prop :=
  files w !! in_ttc = Some (CollectionFile fonts) /\
  forall i f h, fonts !! i = Some f -> hs !! i = Some h ->
    ((1 <= count_occ Nat.eq_dec seen i)%nat ->
       files w !! input_ttf_path tmp in_ttc i = Some (FontFile f)) /\
    ((2 <= count_occ Nat.eq_dec seen i)%nat ->
       files w !! processed_ttf_path tmp in_ttc i = Some (FontFile h) /\
       Print "TTF" (processed_ttf_path tmp in_ttc i) ∈ out w).

(** ** Files a computation may change

    [writes_only P m]: whatever world [m] runs in, and whether it returns or
    raises, every file at a path outside [P] is left as it was (not created,
    rewritten nor removed). *)
Definition writes_only {A} (P : path -> Prop) (m : M A) : Prop :=
  forall w p, ~ P p -> files (snd (m w)) !! p = files w !! p.

(** What the member coroutines of a collection at [in_ttc] have done so far
    ([seen]) when all of them returned: member [i] is unpacked after its first
    step, and its transform succeeded after its second. *)
Definition sched_ok_inv (chws : font -> font) (in_ttc tmp : path) (fonts : list font)
    (seen : list nat) (w : world) : Prop :=
  files w !! in_ttc = Some (CollectionFile fonts) /\
  forall i f, fonts !! i = Some f ->
    ((1 <= count_occ Nat.eq_dec seen i)%nat ->
       files w !! input_ttf_path tmp in_ttc i = Some (FontFile f)) /\
    ((2 <= count_occ Nat.eq_dec seen i)%nat ->
       exists h, transform_result (chws f) = inr h).

(** ** Sample inputs *)

(** A variable font with a 'wght' axis 100..900 (default 100), 'VORG' and
    'VVAR' tables, and a cmap mapping 'A', U+26BD and TAB. *)
Definition sample_vf : font :=
  mkFont [list_to_map [(0x0041, 1); (0x26BD, 2); (0x0009, 3)]]
         (Some [mkAxis "wght" 100 100 900]) (Some [(1, 880)])
         (Some (mkVVAR (Some [(1, 880)]))) ["Noto Sans CJK"].

(** The same font without its 'VORG' table. *)
Definition sample_vf_no_vorg : font :=
  mkFont (cmap_tables sample_vf) (fvar sample_vf) None (VVAR sample_vf)
         (name_records sample_vf).

Definition sample_world (f : font) : world :=
  mkWorld {[ ["in.ttf"] := FontFile f ]} ∅ [].

(** A static font mapping 'A' and TAB. *)
Definition sample_static : font :=
  mkFont [list_to_map [(0x0041, 7); (0x0009, 8)]] None None None ["Noto Serif CJK"].

(** A three-member collection file at [in.ttc]. *)
Definition sample_members : list font := [sample_static; sample_vf; sample_static].

Definition sample_ttc_world : world :=
  mkWorld {[ ["in.ttc"] := CollectionFile sample_members ]} ∅ [].

(** The fonts the worker saves for the members of [sample_members]. *)
Definition sample_transformed : list font :=
  map (fun f => match transform_result f with inr h => h | inl _ => f end) sample_members.

(** A server answering every URL with status [code] and body [b]. *)
Definition constant_server (code : Z) (b : file) (url : string) : response :=
  mkResponse code b.

(** A staging tree left by an earlier run: [temp/input/a.ttf] holds a font. *)
Definition stale_staging_world : world :=
  mkWorld {[ ["temp"; "input"; "a.ttf"] := FontFile sample_static ]}
          {[ ["temp"]; ["temp"; "input"] ]} [].

Definition sample_url : string := "https://example.org/fonts/a.ttf".

(** A server answering the two font URLs with [sample_members] and the
    installer URL with a script. *)
Definition sample_server (url : string) : response :=
  if bool_decide (url = installer_url) then mkResponse 200 (RawFile [35; 33])
  else mkResponse 200 (CollectionFile sample_members).

(** The member coroutines unpack all members, then transform them. *)
Definition sample_sched (p : path) : list nat := [0; 1; 2; 0; 1; 2]%nat.

(** A two-member collection whose second member is a variable font without
    its 'VORG' table. *)
Definition sample_failing_ttc_world : world :=
  mkWorld {[ ["in.ttc"] := CollectionFile [sample_static; sample_vf_no_vorg] ]} ∅ [].

(** * Properties *)

(** ** The exclusion set and cmap deletion *)

Lemma parse_int_range_spec (lo hi c : Z) :
  c ∈ parse_int_range lo hi <-> lo <= c <= hi.
Proof.
  unfold parse_int_range. rewrite elem_of_list_to_set, list_elem_of_fmap.
  split.
  - intros (k & -> & Hk). apply elem_of_seq in Hk. lia.
  - intros Hc. exists (Z.to_nat (c - lo)). split; [lia|].
    apply elem_of_seq. lia.
Qed.

Lemma delete_all_lookup (t : gmap Z Z) (X : gset Z) (k : Z) :
  set_fold (fun c t' => delete c t') t X !! k =
  if bool_decide (k ∈ X) then None else t !! k.
Proof.
  revert X.
  apply (set_fold_ind_L (fun (r : gmap Z Z) (X : gset Z) =>
           r !! k = if bool_decide (k ∈ X) then None else t !! k)).
  - rewrite bool_decide_false by set_solver. reflexivity.
  - intros x X r Hx IH. destruct (decide (k = x)) as [->|Hne].
    + rewrite lookup_delete_eq, bool_decide_true by set_solver. reflexivity.
    + rewrite lookup_delete_ne by congruence. rewrite IH.
      destruct (decide (k ∈ X)).
      * rewrite !bool_decide_true by set_solver. reflexivity.
      * rewrite !bool_decide_false by set_solver. reflexivity.
Qed.

Lemma delete_from_cmap_lookup (f : font) (X : gset Z) (i : nat) (t : gmap Z Z) (k : Z) :
  cmap_tables f !! i = Some t ->
  exists t', cmap_tables (delete_from_cmap f X) !! i = Some t' /\
             t' !! k = if bool_decide (k ∈ X) then None else t !! k.
Proof.
  intros Ht. simpl. rewrite list_lookup_fmap, Ht. simpl.
  eexists; split; [reflexivity|]. apply delete_all_lookup.
Qed.

(** C6: the Codepoint Exclusion Set is the constant union of the control
    characters 0x00-0x1F, [EMOJI_IN_CJK] and [ANDROID_EMOJI] (70 values);
    it contains 0x26BD and 0x0009 and not 0x0041.  It is a closed constant
    of the development: no operation takes it as state. *)
Theorem excluded_codepoints_spec :
  EXCLUDED_CODEPOINTS = CONTROL_CHARS ∪ EMOJI_IN_CJK ∪ ANDROID_EMOJI /\
  (forall c, c ∈ CONTROL_CHARS <-> 0x0000 <= c <= 0x001F) /\
  size EXCLUDED_CODEPOINTS = 70%nat /\
  0x26BD ∈ EXCLUDED_CODEPOINTS /\ 0x0009 ∈ EXCLUDED_CODEPOINTS /\
  0x0041 ∉ EXCLUDED_CODEPOINTS.
Proof.
  split; [unfold EXCLUDED_CODEPOINTS; set_solver|].
  split; [intros c; apply parse_int_range_spec|].
  split; [vm_compute; reflexivity|].
  split; [apply (bool_decide_unpack _); vm_compute; reflexivity|].
  split; [apply (bool_decide_unpack _); vm_compute; reflexivity|].
  apply (bool_decide_unpack _); vm_compute; reflexivity.
Qed.

(** ** Paths of the collection members *)

Lemma string_length_app (s t : string) :
  String.length (s +:+ t) = (String.length s + String.length t)%nat.
Proof. induction s as [|a s IH]; simpl; [reflexivity|]. rewrite IH. reflexivity. Qed.

Lemma string_app_cancel_r (s1 s2 t : string) : s1 +:+ t = s2 +:+ t -> s1 = s2.
Proof.
  revert s2. induction s1 as [|a s1 IH]; intros [|b s2] H; simpl in H.
  - reflexivity.
  - apply (f_equal String.length) in H. simpl in H.
    rewrite !string_length_app in H. simpl in H. lia.
  - apply (f_equal String.length) in H. simpl in H.
    rewrite !string_length_app in H. simpl in H. lia.
  - injection H as -> H. f_equal. apply IH, H.
Qed.

Lemma string_app_cancel_l (s t1 t2 : string) : s +:+ t1 = s +:+ t2 -> t1 = t2.
Proof. induction s as [|a s IH]; simpl; [auto|]. intros H. injection H. auto. Qed.

Lemma member_name_inj (p : path) (i j : nat) :
  member_name p i = member_name p j -> i = j.
Proof.
  unfold member_name. intros H.
  apply string_app_cancel_l in H. apply string_app_cancel_l in H.
  apply string_app_cancel_r in H. apply (inj pretty) in H. exact H.
Qed.

Lemma member_name_ne_name (p : path) (i : nat) : member_name p i <> name p.
Proof.
  unfold member_name. intros H. apply (f_equal String.length) in H.
  rewrite !string_length_app in H. simpl in H. lia.
Qed.

Lemma name_join (d : path) (s : string) : name (join d s) = s.
Proof. unfold name, join. rewrite last_app. reflexivity. Qed.

(** A member path is never the collection's own path. *)
Lemma join_member_ne (d p : path) (i : nat) : join d (member_name p i) <> p.
Proof.
  intros H. apply (member_name_ne_name p i).
  rewrite <- H at 2. rewrite name_join. reflexivity.
Qed.

Lemma join_member_inj (d1 d2 p : path) (i j : nat) :
  join d1 (member_name p i) = join d2 (member_name p j) -> d1 = d2 /\ i = j.
Proof.
  unfold join. intros H. apply app_inj_tail in H as [-> H].
  split; [reflexivity|]. apply (member_name_inj p). congruence.
Qed.

Ltac mrun := unfold bind, ret, raise, emit, print, read_file, write_file,
               ensure_parent_dir in *; simpl in *.

Lemma unpack_ttc_worker_ok (in_ttc dst : path) (i : nat) (fonts : list font)
    (f : font) (w : world) :
  files w !! in_ttc = Some (CollectionFile fonts) -> fonts !! i = Some f ->
  unpack_ttc_worker in_ttc i dst w =
  (inr tt, mkWorld (<[dst := FontFile f]> (files w))
                   (dirs w ∪ list_to_set (ancestors dst))
                   (out w ++ [Print "UNTTC" dst])).
Proof.
  intros Hc Hf. unfold unpack_ttc_worker, load_ttcollection. mrun.
  rewrite Hc. simpl. rewrite Hf. reflexivity.
Qed.

Section Unpack.

Variables (in_ttc out_dir : path) (fonts : list font).

Let mpath (i : nat) : path := join out_dir (member_name in_ttc i).

Lemma run_unpack_workers (ord : list nat) (w : world) :
  files w !! in_ttc = Some (CollectionFile fonts) ->
  (forall i, i ∈ ord -> (i < length fonts)%nat) ->
  exists w',
    run_all (map (fun i => unpack_ttc_worker in_ttc i (mpath i)) ord) w = (inr tt, w') /\
    (forall p, (forall i, i ∈ ord -> p <> mpath i) -> files w' !! p = files w !! p) /\
    (forall i f, i ∈ ord -> fonts !! i = Some f ->
                 files w' !! mpath i = Some (FontFile f)).
Proof.
  revert w. induction ord as [|i ord IH]; intros w Hc Hord.
  - exists w. split; [reflexivity|]. split; [reflexivity|].
    intros i f Hi. apply elem_of_nil in Hi. contradiction.
  - assert (i < length fonts)%nat as Hi by (apply Hord; left).
    destruct (lookup_lt_is_Some_2 fonts i Hi) as [fi Hfi].
    set (w1 := mkWorld (<[mpath i := FontFile fi]> (files w))
                       (dirs w ∪ list_to_set (ancestors (mpath i)))
                       (out w ++ [Print "UNTTC" (mpath i)])).
    assert (Hc1 : files w1 !! in_ttc = Some (CollectionFile fonts)).
    { simpl. rewrite lookup_insert_ne; [exact Hc|].
      intros E. apply (join_member_ne out_dir in_ttc i). exact E. }
    destruct (IH w1 Hc1) as (w' & Hrun & Hsame & Hw).
    { intros j Hj. apply Hord. right. exact Hj. }
    exists w'. split.
    { simpl. unfold bind. rewrite (unpack_ttc_worker_ok _ _ _ fonts fi); auto. }
    split.
    + intros p Hp. rewrite Hsame.
      * simpl. rewrite lookup_insert_ne; [reflexivity|].
        intros E. apply (Hp i); [left | exact (eq_sym E)].
      * intros j Hj. apply Hp. right. exact Hj.
    + intros j f Hj Hf. destruct (decide (j ∈ ord)) as [Hin|Hnin].
      * apply Hw; assumption.
      * apply elem_of_cons in Hj as [->|Hj]; [|contradiction].
        rewrite Hsame.
        -- simpl. rewrite lookup_insert_eq. congruence.
        -- intros k Hk E. apply join_member_inj in E as [_ ->]. contradiction.
Qed.

End Unpack.

Lemma lookup_map_seq {A} (g : nat -> A) (k n i : nat) :
  (i < n)%nat -> map g (seq k n) !! i = Some (g (k + i)%nat).
Proof.
  revert k i. induction n as [|n IH]; intros k i Hi; [lia|].
  destruct i as [|i]; simpl.
  - f_equal. f_equal. lia.
  - rewrite IH by lia. f_equal. f_equal. lia.
Qed.

Lemma lookup_map_seq_None {A} (g : nat -> A) (k n i : nat) :
  (n <= i)%nat -> map g (seq k n) !! i = None.
Proof.
  intros Hi. apply lookup_ge_None_2. rewrite length_map, length_seq. exact Hi.
Qed.

Lemma perm_seq_elem (ord : list nat) (n i : nat) :
  ord ≡ₚ seq 0 n -> i ∈ ord <-> (i < n)%nat.
Proof.
  intros Hp. rewrite !list_elem_of_In. split.
  - intros Hi. apply (Permutation_in _ Hp) in Hi.
    apply list_elem_of_In, elem_of_seq in Hi. lia.
  - intros Hi. apply (Permutation_in _ (Permutation_sym Hp)).
    apply list_elem_of_In, elem_of_seq. lia.
Qed.

Lemma load_all_ok (ps : list path) (fs : list font) (w : world) :
  Forall2 (fun p f => files w !! p = Some (FontFile f)) ps fs ->
  load_all ps w = (inr fs, w).
Proof.
  induction 1 as [|p f ps fs Hp _ IH]; [reflexivity|].
  simpl. unfold load_ttfont. mrun. rewrite Hp. simpl. rewrite IH. reflexivity.
Qed.

(** The member paths written by [unpack_ttc] read back as the members. *)
Lemma member_paths_forall2 (g : nat -> path) (fonts : list font) (w : world) :
  (forall i f, fonts !! i = Some f -> files w !! g i = Some (FontFile f)) ->
  Forall2 (fun p f => files w !! p = Some (FontFile f))
          (map g (seq 0 (length fonts))) fonts.
Proof.
  intros H. apply Forall2_lookup. intros i.
  destruct (decide (i < length fonts)%nat) as [Hi|Hi].
  - rewrite lookup_map_seq by exact Hi.
    destruct (lookup_lt_is_Some_2 fonts i Hi) as [f Hf]. rewrite Hf.
    constructor. apply H. exact Hf.
  - rewrite lookup_map_seq_None by lia. rewrite lookup_ge_None_2 by lia.
    constructor.
Qed.

(** C7: for a collection with N members, [unpack_ttc] returns the N paths
    [out_dir/<name>#<i>.ttf] in member order, writes member [i] to the
    [i]-th of them, and writes no other file, whatever order the executor
    runs the N jobs in. *)
Theorem unpack_ttc_member_paths (ord : list nat) (in_ttc out_dir : path)
    (fonts : list font) (w : world) :
  files w !! in_ttc = Some (CollectionFile fonts) ->
  ord ≡ₚ seq 0 (length fonts) ->
  exists paths w',
    unpack_ttc ord in_ttc out_dir w = (inr paths, w') /\
    length paths = length fonts /\
    (forall i, (i < length fonts)%nat ->
       paths !! i = Some (join out_dir (name in_ttc +:+ "#" +:+ pretty i +:+ ".ttf"))) /\
    (forall i f, fonts !! i = Some f ->
       files w' !! join out_dir (name in_ttc +:+ "#" +:+ pretty i +:+ ".ttf")
       = Some (FontFile f)) /\
    (forall p, (forall i, (i < length fonts)%nat -> p <> join out_dir (member_name in_ttc i)) ->
       files w' !! p = files w !! p).
Proof.
  intros Hc Hp.
  set (w1 := mkWorld (files w) (dirs w) (out w ++ [Print "UNTTC" in_ttc])).
  destruct (run_unpack_workers in_ttc out_dir fonts ord w1) as (w' & Hrun & Hsame & Hw).
  { exact Hc. }
  { intros i Hi. apply (perm_seq_elem ord); assumption. }
  exists (map (fun i => join out_dir (member_name in_ttc i)) (seq 0 (length fonts))), w'.
  split; [|split; [|split; [|split]]].
  - unfold unpack_ttc, load_ttcollection. mrun. rewrite Hc. simpl.
    fold w1. rewrite Hrun. reflexivity.
  - rewrite length_map, length_seq. reflexivity.
  - intros i Hi. rewrite lookup_map_seq by exact Hi. reflexivity.
  - intros i f Hf. apply (Hw i f); [|exact Hf].
    apply (perm_seq_elem ord (length fonts)); [exact Hp|].
    apply lookup_lt_Some in Hf. exact Hf.
  - intros p Hnot. rewrite Hsame; [reflexivity|].
    intros i Hi. apply Hnot. apply (perm_seq_elem ord); assumption.
Qed.

(** C4: unpacking a collection [C] with members [m0..mk] and packing the
    returned member paths, unchanged, gives a collection with the same k+1
    members in the same order. *)
Theorem unpack_pack_roundtrip (ord : list nat) (in_ttc out_dir out_ttc : path)
    (fonts : list font) (w : world) :
  files w !! in_ttc = Some (CollectionFile fonts) ->
  ord ≡ₚ seq 0 (length fonts) ->
  exists paths w1 w2,
    unpack_ttc ord in_ttc out_dir w = (inr paths, w1) /\
    pack_ttc paths out_ttc w1 = (inr tt, w2) /\
    files w2 !! out_ttc = Some (CollectionFile fonts).
Proof.
  intros Hc Hp.
  set (w1 := mkWorld (files w) (dirs w) (out w ++ [Print "UNTTC" in_ttc])).
  destruct (run_unpack_workers in_ttc out_dir fonts ord w1) as (w' & Hrun & _ & Hw).
  { exact Hc. }
  { intros i Hi. apply (perm_seq_elem ord); assumption. }
  set (paths := map (fun i => join out_dir (member_name in_ttc i)) (seq 0 (length fonts))).
  assert (Hall : Forall2 (fun p f => files w' !! p = Some (FontFile f)) paths fonts).
  { apply member_paths_forall2. intros i f Hf. apply (Hw i f); [|exact Hf].
    apply (perm_seq_elem ord (length fonts)); [exact Hp|].
    apply lookup_lt_Some in Hf. exact Hf. }
  set (w2 := mkWorld (files w') (dirs w') (out w' ++ [Print "TTC" out_ttc])).
  exists paths, w',
    (mkWorld (<[out_ttc := CollectionFile fonts]> (files w2))
             (dirs w2 ∪ list_to_set (ancestors out_ttc)) (out w2)).
  split; [|split].
  - unfold unpack_ttc, load_ttcollection. mrun. rewrite Hc. simpl.
    fold w1. rewrite Hrun. reflexivity.
  - unfold pack_ttc. unfold bind at 1, print, emit. fold w2.
    unfold bind at 1. rewrite (load_all_ok paths fonts w2 Hall). reflexivity.
  - simpl. apply lookup_insert_eq.
Qed.

(** ** The font transform worker *)

(** The worker up to the variable-font branch: the patched font is written
    to the intermediate path and read back with its cmap filtered. *)
Lemma process_ttf_worker_unfold (chws : font -> font) (in_ttf out_ttf tmp : path)
    (f : font) (w : world) :
  files w !! in_ttf = Some (FontFile f) ->
  let c := chws_output_path in_ttf tmp in
  let g := delete_from_cmap (chws f) EXCLUDED_CODEPOINTS in
  let w2 := mkWorld (<[c := FontFile (chws f)]> (files w))
                    (dirs w ∪ list_to_set (ancestors c))
                    (out w ++ [Print "ADD_CHWS" in_ttf; Print "SUBSET" c]) in
  process_ttf_worker chws in_ttf out_ttf tmp w =
  bind (match fvar g with
        | Some _ =>
            print "VFINST" c ;;;
            font <-- del_VORG g ;;
            font <-- clear_VOrgMap font ;;
            instantiateVariableFont font "wght" (100, 400, 900)
        | None => ret g
        end)
       (fun font => print "TTF" out_ttf ;;;
                    ensure_parent_dir out_ttf ;;;
                    write_file out_ttf (FontFile font)) w2.
Proof.
  intros Hf c g w2. unfold process_ttf_worker, add_chws, load_ttfont.
  fold c. mrun. rewrite Hf. simpl. rewrite lookup_insert_eq. simpl.
  rewrite <- app_assoc. reflexivity.
Qed.

(** C10: when the patched font has an 'fvar' table (whatever its axes) but
    no 'VORG' or no 'VVAR' table, the worker raises [KeyError] from
    [del font['VORG']] or [font['VVAR']], leaving only the intermediate file
    written: the output path is untouched.  Conversely a successful run on a
    font with 'fvar' implies both tables were present. *)
Theorem process_ttf_worker_fvar_needs_vorg_vvar (chws : font -> font)
    (in_ttf out_ttf tmp : path) (f : font) (w : world) :
  files w !! in_ttf = Some (FontFile f) ->
  fvar (chws f) <> None ->
  ((VORG (chws f) = None \/ VVAR (chws f) = None) ->
   exists tag w',
     process_ttf_worker chws in_ttf out_ttf tmp w = (inl (KeyError tag), w') /\
     (tag = "VORG" \/ tag = "VVAR") /\
     files w' = <[chws_output_path in_ttf tmp := FontFile (chws f)]> (files w) /\
     (out_ttf <> chws_output_path in_ttf tmp -> files w' !! out_ttf = files w !! out_ttf)) /\
  (forall w', process_ttf_worker chws in_ttf out_ttf tmp w = (inr tt, w') ->
   VORG (chws f) <> None /\ VVAR (chws f) <> None).
Proof.
  intros Hf Hv. rewrite (process_ttf_worker_unfold chws in_ttf out_ttf tmp f w Hf).
  destruct (fvar (chws f)) as [axes|] eqn:Efv; [|congruence]. simpl. rewrite Efv.
  unfold del_VORG, clear_VOrgMap. mrun.
  destruct (VORG (chws f)) as [vo|] eqn:Evo;
  destruct (VVAR (chws f)) as [vv|] eqn:Evv; simpl.
  - split; [intros [H|H]; discriminate|].
    intros w' _. split; discriminate.
  - split.
    + intros _. eexists _, _. split; [reflexivity|].
      split; [right; reflexivity|]. split; [reflexivity|].
      intros Hne. simpl. rewrite lookup_insert_ne; congruence.
    + intros w' H. discriminate.
  - split.
    + intros _. eexists _, _. split; [reflexivity|].
      split; [left; reflexivity|]. split; [reflexivity|].
      intros Hne. simpl. rewrite lookup_insert_ne; congruence.
    + intros w' H. discriminate.
  - split.
    + intros _. eexists _, _. split; [reflexivity|].
      split; [left; reflexivity|]. split; [reflexivity|].
      intros Hne. simpl. rewrite lookup_insert_ne; congruence.
    + intros w' H. discriminate.
Qed.



(** The worker on a font whose transform succeeds. *)
Lemma process_ttf_worker_ok (chws : font -> font) (in_ttf out_ttf tmp : path)
    (f h : font) (w : world) :
  files w !! in_ttf = Some (FontFile f) ->
  transform_result (chws f) = inr h ->
  exists d evs,
    process_ttf_worker chws in_ttf out_ttf tmp w =
    (inr tt, mkWorld (<[out_ttf := FontFile h]>
                        (<[chws_output_path in_ttf tmp := FontFile (chws f)]> (files w)))
                     d (out w ++ evs)) /\
    Print "TTF" out_ttf ∈ evs.
Proof.
  intros Hf Ht. rewrite (process_ttf_worker_unfold chws in_ttf out_ttf tmp f w Hf).
  unfold transform_result in Ht. simpl in Ht |- *.
  destruct (fvar (chws f)) as [axes|] eqn:Efv.
  - unfold del_VORG, clear_VOrgMap, instantiateVariableFont. mrun.
    destruct (VORG (chws f)) as [vo|]; [|discriminate].
    destruct (VVAR (chws f)) as [vv|]; [|discriminate]. simpl. rewrite Efv.
    destruct (bool_decide ("wght" ∈ map axisTag axes)); [|discriminate].
    injection Ht as <-. simpl.
    eexists _, _. split; [rewrite <- !app_assoc; reflexivity|].
    simpl. right. right. right. left.
  - injection Ht as <-. mrun.
    eexists _, _. split; [rewrite <- !app_assoc; reflexivity|].
    simpl. right. right. left.
Qed.

(** A worker run that returns normally saw a patched font whose transform
    succeeds. *)
Lemma process_ttf_worker_inr (chws : font -> font) (in_ttf out_ttf tmp : path)
    (f : font) (w w' : world) :
  files w !! in_ttf = Some (FontFile f) ->
  process_ttf_worker chws in_ttf out_ttf tmp w = (inr tt, w') ->
  exists h, transform_result (chws f) = inr h.
Proof.
  intros Hf Hr. destruct (transform_result (chws f)) as [e|h] eqn:Et; [|eauto].
  exfalso. rewrite (process_ttf_worker_unfold chws in_ttf out_ttf tmp f w Hf) in Hr.
  unfold transform_result in Et. simpl in Et, Hr.
  destruct (fvar (chws f)) as [axes|] eqn:Efv; [|discriminate].
  unfold del_VORG, clear_VOrgMap, instantiateVariableFont in Hr. mrun.
  destruct (VORG (chws f)); [|discriminate].
  destruct (VVAR (chws f)); [|discriminate]. simpl in Hr. rewrite Efv in Hr.
  destruct (bool_decide ("wght" ∈ map axisTag axes)); discriminate.
Qed.

(** The transform only touches the cmap through [delete_from_cmap]. *)
Lemma transform_result_cmap (g h : font) :
  transform_result g = inr h ->
  cmap_tables h = cmap_tables (delete_from_cmap g EXCLUDED_CODEPOINTS).
Proof.
  unfold transform_result. simpl.
  destruct (fvar g) as [axes|]; [|intros H; injection H as <-; reflexivity].
  destruct (VORG g), (VVAR g); try discriminate.
  destruct (bool_decide ("wght" ∈ map axisTag axes)); [|discriminate].
  intros H. injection H as <-. reflexivity.
Qed.

(** ** Collections processed by the orchestrator *)

Lemma member_paths_distinct (tmp p : path) (s1 s2 : string) (i j : nat) :
  join (join tmp s1) (member_name p i) = join (join tmp s2) (member_name p j) ->
  s1 = s2 /\ i = j.
Proof.
  intros H. apply join_member_inj in H as [H ->]. split; [|reflexivity].
  unfold join in H. apply app_inj_tail in H as [_ H]. exact H.
Qed.

Lemma chws_output_of_member (tmp p : path) (i : nat) :
  chws_output_path (input_ttf_path tmp p i) tmp =
  join (join tmp "intermediate_chws") (member_name p i).
Proof. unfold chws_output_path, input_ttf_path. rewrite name_join. reflexivity. Qed.

Lemma count_occ_two (sched : list nat) (n i : nat) :
  sched ≡ₚ seq 0 n ++ seq 0 n -> (i < n)%nat ->
  count_occ Nat.eq_dec (rev sched ++ []) i = 2%nat.
Proof.
  intros Hp Hi. rewrite app_nil_r.
  assert (Hr : rev sched ≡ₚ seq 0 n ++ seq 0 n) by (rewrite <- Hp; symmetry; apply Permutation_rev).
  apply (Permutation_count_occ Nat.eq_dec) with (x := i) in Hr.
  rewrite Hr, count_occ_app.
  assert (H1 : count_occ Nat.eq_dec (seq 0 n) i = 1%nat).
  { apply (proj1 (NoDup_count_occ' Nat.eq_dec (seq 0 n))).
    - apply seq_NoDup.
    - apply in_seq. lia. }
  rewrite H1. reflexivity.
Qed.

Section Collection.

Variable chws : font -> font.
Variables (in_ttc tmp : path) (fonts hs : list font).
Hypothesis Hhs : Forall2 (fun f h => transform_result (chws f) = inr h) fonts hs.

Let I (i : nat) : path := input_ttf_path tmp in_ttc i.
Let O (i : nat) : path := processed_ttf_path tmp in_ttc i.

Lemma I_ne_in (i : nat) : I i <> in_ttc.
Proof. apply join_member_ne. Qed.
Lemma O_ne_in (i : nat) : O i <> in_ttc.
Proof. apply join_member_ne. Qed.
Lemma I_inj (i j : nat) : I i = I j -> i = j.
Proof. intros H. apply member_paths_distinct in H as [_ H]. exact H. Qed.
Lemma O_inj (i j : nat) : O i = O j -> i = j.
Proof. intros H. apply member_paths_distinct in H as [_ H]. exact H. Qed.
Lemma I_ne_O (i j : nat) : I i <> O j.
Proof. intros H. apply member_paths_distinct in H as [H _]. discriminate. Qed.
Lemma C_ne_I (i j : nat) : chws_output_path (I i) tmp <> I j.
Proof.
  unfold I. rewrite chws_output_of_member. intros H.
  apply member_paths_distinct in H as [H _]. discriminate.
Qed.
Lemma C_ne_O (i j : nat) : chws_output_path (I i) tmp <> O j.
Proof.
  unfold I. rewrite chws_output_of_member. intros H.
  apply member_paths_distinct in H as [H _]. discriminate.
Qed.
Lemma C_ne_in (i : nat) : chws_output_path (I i) tmp <> in_ttc.
Proof. unfold I. rewrite chws_output_of_member. apply join_member_ne. Qed.

Lemma elem_of_out_app (e : event) (l1 l2 : list event) : e ∈ l1 -> e ∈ l1 ++ l2.
Proof. intros H. apply elem_of_app. left. exact H. Qed.

Ltac paths_ne :=
  let E := fresh "E" in
  intros E;
  first
    [ exact (I_ne_in _ E) | exact (I_ne_in _ (eq_sym E))
    | exact (O_ne_in _ E) | exact (O_ne_in _ (eq_sym E))
    | exact (C_ne_in _ E) | exact (C_ne_in _ (eq_sym E))
    | exact (I_ne_O _ _ E) | exact (I_ne_O _ _ (eq_sym E))
    | exact (C_ne_I _ _ E) | exact (C_ne_I _ _ (eq_sym E))
    | exact (C_ne_O _ _ E) | exact (C_ne_O _ _ (eq_sym E))
    | match goal with
      | Hne : ?a <> ?b |- _ =>
          apply Hne; first [ exact (I_inj _ _ E) | exact (I_inj _ _ (eq_sym E))
                           | exact (O_inj _ _ E) | exact (O_inj _ _ (eq_sym E)) ]
      end ].

Lemma sched_step_ok (seen : list nat) (i : nat) (w : world) :
  sched_inv in_ttc tmp fonts hs seen w -> (i < length fonts)%nat ->
  exists w',
    (match count_occ Nat.eq_dec seen i with
     | 0%nat => unpack_and_process_step chws in_ttc tmp i 0%nat
     | 1%nat => unpack_and_process_step chws in_ttc tmp i 1%nat
     | _ => ret tt
     end) w = (inr tt, w') /\
    sched_inv in_ttc tmp fonts hs (i :: seen) w'.
Proof.
  intros [Hc Hinv] Hi.
  destruct (lookup_lt_is_Some_2 fonts i Hi) as [fi Hfi].
  destruct (Forall2_lookup_l _ _ _ _ _ Hhs Hfi) as (hi & Hhi & Hti).
  destruct (count_occ Nat.eq_dec seen i) as [|[|c]] eqn:Ec.
  - (* first step of coroutine i: unpack member i *)
    eexists. split.
    { simpl. rewrite (unpack_ttc_worker_ok in_ttc _ i fonts fi w Hc Hfi). reflexivity. }
    split.
    + simpl. rewrite lookup_insert_ne by paths_ne. exact Hc.
    + intros j f h Hf Hh. simpl. destruct (Nat.eq_dec i j) as [<-|Hne].
      * rewrite Ec.
        split; [|lia]. intros _. rewrite lookup_insert_eq. congruence.
      *         destruct (Hinv j f h Hf Hh) as [H1 H2]. split.
        -- intros Hle. rewrite lookup_insert_ne by paths_ne. apply H1, Hle.
        -- intros Hle. destruct (H2 Hle) as [Ho Hp]. split.
           ++ rewrite lookup_insert_ne by paths_ne. exact Ho.
           ++ apply elem_of_out_app, Hp.
  - (* second step of coroutine i: transform member i *)
    destruct (Hinv i fi hi Hfi Hhi) as [Hin _].
    assert (HI : files w !! I i = Some (FontFile fi)) by (apply Hin; rewrite Ec; lia).
    destruct (process_ttf_worker_ok chws (I i) (O i) tmp fi hi w HI Hti)
      as (d & evs & Hrun & Hev).
    eexists. split; [simpl; unfold process_ttf; exact Hrun|].
    split.
    + simpl. rewrite lookup_insert_ne by paths_ne.
      rewrite lookup_insert_ne by paths_ne.
      exact Hc.
    + intros j f h Hf Hh. simpl. destruct (Nat.eq_dec i j) as [<-|Hne].
      * rewrite Ec.
        assert (f = fi) as -> by congruence. assert (h = hi) as -> by congruence.
        split.
        -- intros _. rewrite lookup_insert_ne by paths_ne.
           rewrite lookup_insert_ne by paths_ne.
           exact HI.
        -- intros _. split; [apply lookup_insert_eq|].
           apply elem_of_app. right. exact Hev.
      *         destruct (Hinv j f h Hf Hh) as [H1 H2]. split.
        -- intros Hle.
           rewrite lookup_insert_ne by paths_ne.
           rewrite lookup_insert_ne by paths_ne.
           apply H1, Hle.
        -- intros Hle. destruct (H2 Hle) as [Ho Hp]. split.
           ++ rewrite lookup_insert_ne by paths_ne.
              rewrite lookup_insert_ne by paths_ne.
              exact Ho.
           ++ apply elem_of_out_app, Hp.
  - (* coroutine i has already finished *)
    exists w. split; [reflexivity|]. split; [exact Hc|].
    intros j f h Hf Hh. destruct (Hinv j f h Hf Hh) as [H1 H2].
    simpl. destruct (Nat.eq_dec i j) as [<-|Hne].
    + rewrite Ec in H1, H2 |- *.
      split; intros _; [apply H1 | apply H2]; lia.
    + split; assumption.
Qed.

Lemma run_sched_ok (sched seen : list nat) (w : world) :
  sched_inv in_ttc tmp fonts hs seen w ->
  (forall i, i ∈ sched -> (i < length fonts)%nat) ->
  exists w',
    run_sched (unpack_and_process_step chws in_ttc tmp) seen sched w = (inr tt, w') /\
    sched_inv in_ttc tmp fonts hs (rev sched ++ seen) w'.
Proof.
  revert seen w. induction sched as [|i rest IH]; intros seen w Hinv Hs.
  - exists w. split; [reflexivity | exact Hinv].
  - destruct (sched_step_ok seen i w Hinv) as (w1 & Hstep & Hinv1).
    { apply Hs. left. }
    destruct (IH (i :: seen) w1 Hinv1) as (w' & Hrun & Hinv').
    { intros j Hj. apply Hs. right. exact Hj. }
    exists w'. split.
    + cbn [run_sched]. unfold bind at 1. rewrite Hstep. exact Hrun.
    + simpl. rewrite <- app_assoc. exact Hinv'.
Qed.

(** The same two steps, read backwards from a run that returned: no
    assumption is made on the transforms of the members. *)
Lemma sched_step_inr (seen : list nat) (i : nat) (w w' : world) :
  sched_ok_inv chws in_ttc tmp fonts seen w -> (i < length fonts)%nat ->
  (match count_occ Nat.eq_dec seen i with
   | 0%nat => unpack_and_process_step chws in_ttc tmp i 0%nat
   | 1%nat => unpack_and_process_step chws in_ttc tmp i 1%nat
   | _ => ret tt
   end) w = (inr tt, w') ->
  sched_ok_inv chws in_ttc tmp fonts (i :: seen) w'.
Proof.
  intros [Hc Hinv] Hi Hstep.
  destruct (lookup_lt_is_Some_2 fonts i Hi) as [fi Hfi].
  destruct (count_occ Nat.eq_dec seen i) as [|[|c]] eqn:Ec.
  - simpl in Hstep. rewrite (unpack_ttc_worker_ok in_ttc _ i fonts fi w Hc Hfi) in Hstep.
    injection Hstep as <-. split.
    + simpl. rewrite lookup_insert_ne by paths_ne. exact Hc.
    + intros j f Hf. simpl. destruct (Nat.eq_dec i j) as [<-|Hne].
      * rewrite Ec. split; [|lia]. intros _. rewrite lookup_insert_eq. congruence.
      * destruct (Hinv j f Hf) as [H1 H2]. split; [|exact H2].
        intros Hle. rewrite lookup_insert_ne by paths_ne. apply H1, Hle.
  - destruct (Hinv i fi Hfi) as [Hin _].
    assert (HI : files w !! I i = Some (FontFile fi)) by (apply Hin; rewrite Ec; lia).
    simpl in Hstep. unfold process_ttf in Hstep.
    destruct (process_ttf_worker_inr chws (I i) (O i) tmp fi w w' HI Hstep) as [hi Hti].
    destruct (process_ttf_worker_ok chws (I i) (O i) tmp fi hi w HI Hti)
      as (d & evs & Hrun & _).
    pose proof (eq_trans (eq_sym Hstep) Hrun) as Ew. injection Ew as ->. split.
    + simpl. rewrite lookup_insert_ne by paths_ne.
      rewrite lookup_insert_ne by paths_ne. exact Hc.
    + intros j f Hf. simpl. destruct (Nat.eq_dec i j) as [<-|Hne].
      * rewrite Ec. assert (f = fi) as -> by congruence. split.
        -- intros _. rewrite lookup_insert_ne by paths_ne.
           rewrite lookup_insert_ne by paths_ne. exact HI.
        -- intros _. exists hi. exact Hti.
      * destruct (Hinv j f Hf) as [H1 H2]. split; [|exact H2].
        intros Hle. rewrite lookup_insert_ne by paths_ne.
        rewrite lookup_insert_ne by paths_ne. apply H1, Hle.
  - simpl in Hstep. injection Hstep as <-. split; [exact Hc|].
    intros j f Hf. destruct (Hinv j f Hf) as [H1 H2].
    simpl. destruct (Nat.eq_dec i j) as [<-|Hne].
    + rewrite Ec in H1, H2 |- *. split; intros _; [apply H1 | apply H2]; lia.
    + split; assumption.
Qed.

Lemma run_sched_inr (sched seen : list nat) (w w' : world) :
  sched_ok_inv chws in_ttc tmp fonts seen w ->
  (forall i, i ∈ sched -> (i < length fonts)%nat) ->
  run_sched (unpack_and_process_step chws in_ttc tmp) seen sched w = (inr tt, w') ->
  sched_ok_inv chws in_ttc tmp fonts (rev sched ++ seen) w'.
Proof.
  revert seen w. induction sched as [|i rest IH]; intros seen w Hinv Hs Hr.
  - simpl in Hr. injection Hr as <-. exact Hinv.
  - cbn [run_sched] in Hr. unfold bind at 1 in Hr. revert Hr.
    destruct ((match count_occ Nat.eq_dec seen i with
               | 0%nat => unpack_and_process_step chws in_ttc tmp i 0%nat
               | 1%nat => unpack_and_process_step chws in_ttc tmp i 1%nat
               | _ => ret tt
               end) w) as [[e|[]] w1] eqn:Estep; intros Hr; [discriminate|].
    apply sched_step_inr in Estep; [|exact Hinv|apply Hs; left].
    simpl. rewrite <- app_assoc. apply (IH (i :: seen) w1 Estep); [|exact Hr].
    intros j Hj. apply Hs. right. exact Hj.
Qed.

End Collection.

(** C9: for every interleaving of the member coroutines of a collection
    (each resumed twice), [process_ttc] starts the repack only after the N
    member transforms have printed their TTF line, and the repacked
    collection holds the transformed members in original member order. *)
Theorem process_ttc_repack_after_all_transforms (chws : font -> font)
    (sched : list nat) (in_ttc out_ttc tmp : path) (fonts hs : list font) (w : world) :
  files w !! in_ttc = Some (CollectionFile fonts) ->
  sched ≡ₚ seq 0 (length fonts) ++ seq 0 (length fonts) ->
  Forall2 (fun f h => transform_result (chws f) = inr h) fonts hs ->
  exists w' L,
    process_ttc chws sched in_ttc out_ttc tmp w = (inr tt, w') /\
    out w' = L ++ [Print "TTC" out_ttc] /\
    (forall i, (i < length fonts)%nat ->
       Print "TTF" (processed_ttf_path tmp in_ttc i) ∈ L) /\
    files w' !! out_ttc = Some (CollectionFile hs).
Proof.
  intros Hc Hp Hhs.
  assert (Hlen : length hs = length fonts) by (symmetry; eapply Forall2_length; exact Hhs).
  destruct (run_sched_ok chws in_ttc tmp fonts hs Hhs sched [] w) as (w1 & Hrun & [_ Hinv]).
  { split; [exact Hc|]. intros i f h _ _. simpl. split; lia. }
  { intros i Hi. rewrite Hp in Hi. apply elem_of_app in Hi as [Hi|Hi];
      apply elem_of_seq in Hi; lia. }
  assert (Hout : forall i h, hs !! i = Some h ->
            files w1 !! processed_ttf_path tmp in_ttc i = Some (FontFile h) /\
            Print "TTF" (processed_ttf_path tmp in_ttc i) ∈ out w1).
  { intros i h Hh. destruct (Forall2_lookup_r _ _ _ _ _ Hhs Hh) as (f & Hf & _).
    apply (Hinv i f h Hf Hh). rewrite (count_occ_two sched (length fonts) i Hp).
    - lia.
    - apply lookup_lt_Some in Hf. exact Hf. }
  set (w2 := mkWorld (files w1) (dirs w1) (out w1 ++ [Print "TTC" out_ttc])).
  assert (Hall : Forall2 (fun p f => files w2 !! p = Some (FontFile f))
                   (map (processed_ttf_path tmp in_ttc) (seq 0 (length fonts))) hs).
  { rewrite <- Hlen. apply member_paths_forall2. intros i h Hh. apply (Hout i h Hh). }
  eexists (mkWorld (<[out_ttc := CollectionFile hs]> (files w2))
                   (dirs w2 ∪ list_to_set (ancestors out_ttc)) (out w2)), (out w1).
  split; [|split; [|split]].
  - unfold process_ttc, load_ttcollection. unfold bind at 1 2. unfold read_file.
    rewrite Hc. unfold ret. unfold bind at 1. rewrite Hrun.
    unfold pack_ttc. unfold bind at 1, print, emit. fold w2.
    unfold bind at 1. rewrite (load_all_ok _ hs w2 Hall). reflexivity.
  - reflexivity.
  - intros i Hi. rewrite <- Hlen in Hi.
    destruct (lookup_lt_is_Some_2 hs i Hi) as [h Hh]. apply (Hout i h Hh).
  - simpl. apply lookup_insert_eq.
Qed.

(** ** The download gate *)

Lemma filter_insert_length {A} (P : A -> bool) (l : list A) (i : nat) (x y : A) :
  l !! i = Some x ->
  (length (List.filter P (<[i := y]> l)) + (if P x then 1 else 0) =
   length (List.filter P l) + (if P y then 1 else 0))%nat.
Proof.
  revert i. induction l as [|a l IH]; intros [|i] Hi; try discriminate; simpl in *.
  - injection Hi as ->. destruct (P x), (P y); simpl; lia.
  - specialize (IH i Hi). destruct (P a); simpl; lia.
Qed.

Lemma filter_length_le {A} (P Q : A -> bool) (l : list A) :
  (forall a, P a = true -> Q a = true) ->
  (length (List.filter P l) <= length (List.filter Q l))%nat.
Proof.
  intros H. induction l as [|a l IH]; simpl; [lia|].
  destruct (P a) eqn:Ep; [rewrite (H a Ep); simpl; lia|].
  destruct (Q a); simpl; lia.
Qed.


Lemma active_split (l : list Gate.task) :
  length (List.filter Gate.is_active l) =
  (length (List.filter Gate.is_active_gated l) + length (List.filter Gate.active_ungated l))%nat.
Proof.
  induction l as [|[g p] l IH]; simpl; [reflexivity|].
  unfold Gate.is_active_gated, Gate.active_ungated, Gate.is_active in *; simpl.
  destruct g, p; simpl; lia.
Qed.

(** The semaphore counter and the gated downloads in flight add up to the
    capacity; the number of ungated downloads never changes. *)
Lemma gate_invariant (N : nat) (l : list Gate.task) (s : Gate.state) :
  Forall (fun t => Gate.ph t = Gate.Waiting) l ->
  Gate.reachable (Gate.init N l) s ->
  (Gate.sem_value s + Gate.active_gated_downloads s = N)%nat /\
  length (List.filter Gate.ungated (Gate.tasks s)) = length (List.filter Gate.ungated l).
Proof.
  intros Hw Hr. induction Hr as [|s s' Hr IH Hs].
  - simpl. unfold Gate.active_gated_downloads. simpl. split; [|reflexivity].
    assert (length (List.filter Gate.is_active_gated l) = 0%nat) as ->; [|lia].
    induction Hw as [|t l Ht _ IHw]; simpl; [reflexivity|].
    unfold Gate.is_active_gated, Gate.is_active at 1. rewrite Ht.
    rewrite andb_false_r. exact IHw.
  - destruct IH as [IH1 IH2].
    unfold Gate.active_gated_downloads in *.
    inversion Hs as [v l' i Hi Hv | v l' i Hi | v l' i g Hi]; subst; simpl in *.
    + pose proof (filter_insert_length Gate.is_active_gated l' i _ (Gate.mkTask true Gate.Active) Hi).
      pose proof (filter_insert_length Gate.ungated l' i _ (Gate.mkTask true Gate.Active) Hi).
      simpl in *. split; lia.
    + pose proof (filter_insert_length Gate.is_active_gated l' i _ (Gate.mkTask false Gate.Active) Hi).
      pose proof (filter_insert_length Gate.ungated l' i _ (Gate.mkTask false Gate.Active) Hi).
      simpl in *. split; lia.
    + pose proof (filter_insert_length Gate.is_active_gated l' i _ (Gate.mkTask g Gate.Finished) Hi).
      pose proof (filter_insert_length Gate.ungated l' i _ (Gate.mkTask g Gate.Finished) Hi).
      destruct g; simpl in *; split; lia.
Qed.

Lemma main_downloads_waiting (url_arg : option string) :
  Forall (fun t => Gate.ph t = Gate.Waiting) (Gate.main_downloads url_arg).
Proof.
  unfold Gate.main_downloads. destruct (urls_of url_arg) as [urls b].
  apply Forall_app. split.
  - apply Forall_forall. intros t Ht. apply list_elem_of_In, in_map_iff in Ht as (u & <- & _).
    reflexivity.
  - destruct b; repeat constructor.
Qed.

Lemma main_downloads_ungated (url_arg : option string) :
  length (List.filter Gate.ungated (Gate.main_downloads url_arg)) =
  (if snd (urls_of url_arg) then 1 else 0)%nat.
Proof.
  unfold Gate.main_downloads. destruct (urls_of url_arg) as [urls b]. simpl.
  rewrite List.filter_app, length_app.
  assert (length (List.filter Gate.ungated (map (fun _ => Gate.mkTask true Gate.Waiting) urls))
          = 0%nat) as ->.
  { induction urls as [|u urls IH]; simpl; [reflexivity|exact IH]. }
  destruct b; reflexivity.
Qed.

(** C8 (as the code does it): in every run of [main] with gate capacity N,
    at most N gated downloads (the asset downloads) are in flight at once;
    the installer download of the default run does not take a slot, so up
    to N + 1 downloads can be in flight then, and N without it. *)
Theorem main_gated_downloads_bounded (N : nat) (url_arg : option string) (s : Gate.state) :
  Gate.reachable (Gate.init N (Gate.main_downloads url_arg)) s ->
  (Gate.active_gated_downloads s <= N)%nat /\
  (Gate.active_downloads s <= N + (if snd (urls_of url_arg) then 1 else 0))%nat.
Proof.
  intros Hr.
  destruct (gate_invariant N _ s (main_downloads_waiting url_arg) Hr) as [H1 H2].
  rewrite main_downloads_ungated in H2. split; [lia|].
  unfold Gate.active_downloads. rewrite active_split.
  pose proof (filter_length_le Gate.active_ungated Gate.ungated (Gate.tasks s)) as H3.
  unfold Gate.active_gated_downloads in H1.
  assert (length (List.filter Gate.active_ungated (Gate.tasks s)) <=
          length (List.filter Gate.ungated (Gate.tasks s)))%nat.
  { apply H3. intros a Ha. unfold Gate.active_ungated, Gate.ungated in *.
    apply andb_prop in Ha as [Ha _]. exact Ha. }
  lia.
Qed.

(** ** Fetcher *)

(** C2 (as the code does it): [download_file] compares the final status
    with 200 only.  On any other status it logs an error and returns
    [false] without raising and without writing a file; on 200 it writes the
    body at the destination and returns [true].  The server is asked once. *)
Theorem download_file_status (server : string -> response) (url : string)
    (p : path) (w : world) :
  download_file server url p w =
  if bool_decide (status_code (server url) = 200) then
    (inr true, mkWorld (<[p := body (server url)]> (files w))
                       (dirs w ∪ list_to_set (ancestors p)) (out w ++ [Print "FETCH" p]))
  else
    (inr false, mkWorld (files w) (dirs w) (out w ++ [Print "FETCH" p; LogError url])).
Proof.
  unfold download_file. mrun.
  destruct (decide (status_code (server url) = 200)) as [E|E].
  - rewrite bool_decide_false by (intros H; exact (H E)).
    rewrite bool_decide_true by exact E. reflexivity.
  - rewrite bool_decide_true by exact E. rewrite bool_decide_false by exact E.
    simpl. rewrite <- app_assoc. reflexivity.
Qed.

(** C2 fails for 2xx statuses other than 200: a 204 answer is a failure. *)
Lemma download_file_204_fails :
  download_file (constant_server 204 (RawFile [])) sample_url ["a.ttf"] (mkWorld ∅ ∅ []) =
  (inr false, mkWorld ∅ ∅ [Print "FETCH" ["a.ttf"]; LogError sample_url]).
Proof. vm_compute. reflexivity. Qed.

(** ** Staging teardown in [main] *)

(** C1 (as the code does it): when an asset chain raises, [main] raises the
    same exception with the world left by the chains: neither
    [executor.shutdown()] nor [shutil.rmtree(temp)] runs.  When every chain
    returns and the staging directory exists, [main] shuts the executor
    down, then removes the staging tree once. *)
Theorem main_teardown_on_success_only (chws : font -> font)
    (server : string -> response) (sched : path -> list nat)
    (url_arg : option string) (w : world) :
  (forall e w1, run_all (main_futures chws server sched url_arg) w = (inl e, w1) ->
     main chws server sched url_arg w = (inl e, w1)) /\
  (forall w1, run_all (main_futures chws server sched url_arg) w = (inr tt, w1) ->
     temp_dir ∈ dirs w1 ->
     exists w', main chws server sched url_arg w = (inr tt, w') /\
       out w' = out w1 ++ [Shutdown; Rmtree temp_dir] /\
       (forall p, prefix temp_dir p -> files w' !! p = None)).
Proof.
  split.
  - intros e w1 H. unfold main. unfold bind at 1. rewrite H. reflexivity.
  - intros w1 H Hd. unfold main. unfold bind at 1. rewrite H.
    unfold bind, emit, rmtree. simpl. rewrite bool_decide_true by exact Hd.
    eexists. split; [reflexivity|]. simpl. split; [rewrite <- app_assoc; reflexivity|].
    intros p Hp. apply map_lookup_filter_None. right. intros x _ Hn. exact (Hn Hp).
Qed.

(** C1 fails on the failure path: the default run on a server answering
    with bytes that are not a font raises [DecodeError]; the staging file
    [temp/input/NotoSerifCJK-VF.otf.ttc] is left behind and no teardown is
    logged. *)
Lemma main_failure_skips_teardown :
  let r := main id (constant_server 200 (RawFile [0])) (fun _ => []) None (mkWorld ∅ ∅ []) in
  fst r = inl (DecodeError ["temp"; "input"; "NotoSerifCJK-VF.otf.ttc"]) /\
  out (snd r) = [Print "FETCH" ["temp"; "input"; "NotoSerifCJK-VF.otf.ttc"];
                 Print "ADD_CHWS" ["temp"; "input"; "NotoSerifCJK-VF.otf.ttc"]] /\
  files (snd r) !! ["temp"; "input"; "NotoSerifCJK-VF.otf.ttc"] = Some (RawFile [0]).
Proof. vm_compute. split; [reflexivity|]. split; reflexivity. Qed.

(** ** A failed download in the orchestrator *)

(** C3: [download_and_process_file] ignores the result of [download_file].
    With [--url] on a URL answering 404 while [temp/input/a.ttf] is left from
    an earlier run, the download fails and logs an error, yet the stale file
    is patched, subset and saved to [system/fonts/a.ttf], and [main]
    succeeds. *)
Theorem failed_download_still_processed :
  let r := main id (constant_server 404 (RawFile [])) (fun _ => []) (Some sample_url)
                stale_staging_world in
  fst r = inr tt /\
  out (snd r) = [Print "FETCH" ["temp"; "input"; "a.ttf"];
                 LogError sample_url;
                 Print "ADD_CHWS" ["temp"; "input"; "a.ttf"];
                 Print "SUBSET" ["temp"; "intermediate_chws"; "a.ttf"];
                 Print "TTF" ["system"; "fonts"; "a.ttf"];
                 Shutdown; Rmtree ["temp"]] /\
  output_font r ["system"; "fonts"; "a.ttf"] =
    Some (delete_from_cmap sample_static EXCLUDED_CODEPOINTS).
Proof. vm_compute. split; [reflexivity|]. split; reflexivity. Qed.

(** ** Files each function writes *)

Lemma writes_only_ret {A} (P : path -> Prop) (x : A) : writes_only P (ret x).
Proof. intros w p _. reflexivity. Qed.

Lemma writes_only_raise {A} (P : path -> Prop) (e : exc) : writes_only P (@raise A e).
Proof. intros w p _. reflexivity. Qed.

Lemma writes_only_emit (P : path -> Prop) (e : event) : writes_only P (emit e).
Proof. intros w p _. reflexivity. Qed.

Lemma writes_only_print (P : path -> Prop) (tag : string) (q : path) :
  writes_only P (print tag q).
Proof. intros w p _. reflexivity. Qed.

Lemma writes_only_read_file (P : path -> Prop) (q : path) : writes_only P (read_file q).
Proof. intros w p _. unfold read_file. destruct (files w !! q); reflexivity. Qed.

Lemma writes_only_ensure_parent_dir (P : path -> Prop) (q : path) :
  writes_only P (ensure_parent_dir q).
Proof. intros w p _. reflexivity. Qed.

Lemma writes_only_write_file (P : path -> Prop) (q : path) (c : file) :
  P q -> writes_only P (write_file q c).
Proof.
  intros Hq w p Hp. simpl. rewrite lookup_insert_ne; [reflexivity|].
  intros ->. exact (Hp Hq).
Qed.

Lemma writes_only_bind {A B} (P : path -> Prop) (m : M A) (k : A -> M B) :
  writes_only P m -> (forall x, writes_only P (k x)) -> writes_only P (bind m k).
Proof.
  intros Hm Hk w p Hp. specialize (Hm w p Hp). unfold bind.
  destruct (m w) as [[e|x] w'] eqn:E; simpl in *; [exact Hm|].
  rewrite (Hk x w' p Hp). exact Hm.
Qed.

Lemma writes_only_mono {A} (P Q : path -> Prop) (m : M A) :
  (forall p, P p -> Q p) -> writes_only P m -> writes_only Q m.
Proof. intros HPQ Hm w p Hq. apply Hm. intros Hp. exact (Hq (HPQ p Hp)). Qed.

Lemma writes_only_run_all (P : path -> Prop) (l : list (M unit)) :
  Forall (writes_only P) l -> writes_only P (run_all l).
Proof.
  induction 1 as [|m l Hm _ IH]; simpl; [apply writes_only_ret|].
  apply writes_only_bind; [exact Hm | intros _; exact IH].
Qed.

Create HintDb writes.
#[local] Hint Resolve writes_only_ret writes_only_raise writes_only_emit writes_only_print
  writes_only_read_file writes_only_ensure_parent_dir : writes.

(** Split a computation into its primitive steps, destructing the values
    its control flow depends on; the writes are left as side goals. *)
Ltac writes_steps :=
  repeat first
    [ solve [eauto with writes]
    | apply writes_only_bind; [|intros ?]
    | apply writes_only_write_file
    | case_match ].

Lemma load_all_writes (P : path -> Prop) (ttfs : list path) : writes_only P (load_all ttfs).
Proof.
  induction ttfs as [|ttf rest IH]; simpl; [apply writes_only_ret|].
  unfold load_ttfont. writes_steps.
Qed.

Lemma unpack_ttc_worker_writes (in_ttc : path) (i : nat) (dst : path) :
  writes_only (fun p => p = dst) (unpack_ttc_worker in_ttc i dst).
Proof. unfold unpack_ttc_worker, load_ttcollection. writes_steps; reflexivity. Qed.

Lemma process_ttf_worker_writes (chws : font -> font) (in_ttf out_ttf tmp : path) :
  writes_only (fun p => p = chws_output_path in_ttf tmp \/ p = out_ttf)
              (process_ttf_worker chws in_ttf out_ttf tmp).
Proof.
  unfold process_ttf_worker, add_chws, load_ttfont, del_VORG, clear_VOrgMap,
    instantiateVariableFont. cbv zeta.
  writes_steps; solve [left; reflexivity | right; reflexivity].
Qed.

Lemma pack_ttc_writes (ttfs : list path) (out_ttc : path) :
  writes_only (fun p => p = out_ttc) (pack_ttc ttfs out_ttc).
Proof.
  unfold pack_ttc. apply writes_only_bind; [apply writes_only_print|intros _].
  apply writes_only_bind; [apply load_all_writes|intros fs].
  writes_steps; reflexivity.
Qed.

Lemma is_ttc_writes (P : path -> Prop) (q : path) : writes_only P (is_ttc q).
Proof. unfold is_ttc. writes_steps. Qed.

Lemma download_file_writes (server : string -> response) (url : string) (q : path) :
  writes_only (fun p => p = q) (download_file server url q).
Proof. unfold download_file. cbv zeta. writes_steps; reflexivity. Qed.

Lemma run_sched_writes (P : path -> Prop) (step : nat -> nat -> M unit)
    (seen sched : list nat) :
  (forall i j, writes_only P (step i j)) -> writes_only P (run_sched step seen sched).
Proof.
  intros Hs. revert seen. induction sched as [|i rest IH]; intros seen;
    cbn [run_sched]; [apply writes_only_ret|].
  apply writes_only_bind; [|intros _; apply IH].
  destruct (count_occ Nat.eq_dec seen i) as [|[|c]]; auto with writes.
Qed.

Lemma prefix_join2 (tmp : path) (s t : string) : prefix tmp (join (join tmp s) t).
Proof. exists [s; t]. unfold join. rewrite <- app_assoc. reflexivity. Qed.

Lemma prefix_join_name (q : path) (s : string) : prefix q (join_name q s).
Proof.
  unfold join_name. case_bool_decide; [exists []; symmetry; apply app_nil_r|exists [s]; reflexivity].
Qed.

Lemma prefix_join_name2 (tmp : path) (s t : string) : prefix tmp (join_name (join tmp s) t).
Proof.
  destruct (prefix_join_name (join tmp s) t) as [k Hk]. exists (s :: k).
  rewrite Hk. unfold join. rewrite <- app_assoc. reflexivity.
Qed.

Lemma unpack_and_process_step_writes (chws : font -> font) (in_ttc tmp : path) (i j : nat) :
  writes_only (prefix tmp) (unpack_and_process_step chws in_ttc tmp i j).
Proof.
  destruct j as [|j]; simpl.
  - eapply writes_only_mono; [|apply unpack_ttc_worker_writes].
    intros p ->. apply prefix_join2.
  - unfold process_ttf. eapply writes_only_mono; [|apply process_ttf_worker_writes].
    intros p [-> | ->]; [unfold chws_output_path|]; apply prefix_join2.
Qed.

Lemma process_ttc_writes (chws : font -> font) (sched : list nat) (in_ttc out_ttc tmp : path) :
  writes_only (fun p => prefix tmp p \/ p = out_ttc) (process_ttc chws sched in_ttc out_ttc tmp).
Proof.
  unfold process_ttc, load_ttcollection.
  apply writes_only_bind; [writes_steps|intros ttc]. cbv zeta.
  apply writes_only_bind.
  - eapply writes_only_mono; [|apply run_sched_writes; intros; apply unpack_and_process_step_writes].
    intros p Hp. left. exact Hp.
  - intros _. eapply writes_only_mono; [|apply pack_ttc_writes].
    intros p ->. right. reflexivity.
Qed.

Lemma process_font_writes (chws : font -> font) (sched : path -> list nat)
    (in_font out_font tmp : path) :
  writes_only (fun p => prefix tmp p \/ p = out_font)
              (process_font chws sched in_font out_font tmp).
Proof.
  unfold process_font. apply writes_only_bind; [apply is_ttc_writes|intros b].
  destruct b; [apply process_ttc_writes|].
  unfold process_ttf. eapply writes_only_mono; [|apply process_ttf_worker_writes].
  intros p [-> | ->]; [left; apply prefix_join2 | right; reflexivity].
Qed.

Lemma download_and_process_file_writes (chws : font -> font) (server : string -> response)
    (sched : path -> list nat) (url : string) :
  writes_only (fun p => prefix temp_dir p \/ p = join_name ["system"; "fonts"] (url_basename url))
              (download_and_process_file chws server sched url).
Proof.
  unfold download_and_process_file. cbv zeta.
  apply writes_only_bind; [|intros _; apply process_font_writes].
  eapply writes_only_mono; [|apply download_file_writes].
  intros p ->. left. apply prefix_join_name2.
Qed.

Lemma rmtree_writes (q : path) : writes_only (prefix q) (rmtree q).
Proof.
  intros w p Hp. unfold rmtree. case_bool_decide; simpl; [|reflexivity].
  destruct (files w !! p) as [c|] eqn:E.
  - apply map_lookup_filter_Some. split; [exact E|]. simpl. exact Hp.
  - apply map_lookup_filter_None. left. exact E.
Qed.

(** The paths [main] may write for a given [--url] argument. *)
Lemma main_writes (chws : font -> font) (server : string -> response)
    (sched : path -> list nat) (url_arg : option string) :
  writes_only (fun p => prefix temp_dir p \/
                        (exists u, u ∈ fst (urls_of url_arg) /\
                                   p = join_name ["system"; "fonts"] (url_basename u)) \/
                        (snd (urls_of url_arg) = true /\ p = installer_path))
              (main chws server sched url_arg).
Proof.
  unfold main. apply writes_only_bind; [|intros _].
  - apply writes_only_run_all. unfold main_futures.
    destruct (urls_of url_arg) as [urls b] eqn:Eu. simpl.
    apply Forall_app. split.
    + apply List.Forall_forall. intros m Hm. apply in_map_iff in Hm as (u & <- & Hu).
      eapply writes_only_mono; [|apply download_and_process_file_writes].
      intros p [Hp | ->]; [left; exact Hp|].
      right. left. exists u. split; [apply list_elem_of_In, Hu|reflexivity].
    + destruct b; [|constructor]. constructor; [|constructor].
      apply writes_only_bind; [|intros _; apply writes_only_ret].
      eapply writes_only_mono; [|apply download_file_writes].
      intros p ->. right. right. split; reflexivity.
  - apply writes_only_bind; [apply writes_only_emit|intros _].
    eapply writes_only_mono; [|apply rmtree_writes].
    intros p Hp. left. exact Hp.
Qed.

(** ** Loading and packing *)

Lemma load_all_missing (pre post : list path) (p : path) (fs : list font) (w : world) :
  Forall2 (fun q f => files w !! q = Some (FontFile f)) pre fs ->
  files w !! p = None ->
  load_all (pre ++ p :: post) w = (inl (FileNotFoundError p), w).
Proof.
  intros Hpre Hp. induction Hpre as [|q f pre fs Hq _ IH]; simpl; unfold load_ttfont; mrun.
  - rewrite Hp. reflexivity.
  - rewrite Hq. simpl. rewrite IH. reflexivity.
Qed.

(** * Further properties of the code *)

(** [process_ttf_worker] changes at most two files: the intermediate
    [temp_dir/intermediate_chws/<name>] and [out_ttf].  When it raises, for
    whatever reason, [out_ttf] is left as it was (unless it is the
    intermediate path itself). *)
Theorem process_ttf_worker_writes_two_paths (chws : font -> font)
    (in_ttf out_ttf tmp : path) (w : world) :
  (forall p, p <> chws_output_path in_ttf tmp -> p <> out_ttf ->
     files (snd (process_ttf_worker chws in_ttf out_ttf tmp w)) !! p = files w !! p) /\
  (forall e w', process_ttf_worker chws in_ttf out_ttf tmp w = (inl e, w') ->
     out_ttf <> chws_output_path in_ttf tmp -> files w' !! out_ttf = files w !! out_ttf).
Proof.
  split.
  - intros p H1 H2. apply process_ttf_worker_writes. intros [H|H]; contradiction.
  - intros e w' Hr Hne.
    destruct (files w !! in_ttf) as [[f| |]|] eqn:Ef.
    + (* the patched font is saved at the intermediate path, then the
         variable-font branch raises before [out_ttf] is written *)
      rewrite (process_ttf_worker_unfold chws in_ttf out_ttf tmp f w Ef) in Hr.
      simpl in Hr. destruct (fvar (chws f)) as [axes|]; [|discriminate].
      unfold del_VORG, clear_VOrgMap, instantiateVariableFont in Hr. mrun.
      destruct (VORG (chws f)); [destruct (VVAR (chws f))|]; simpl in Hr;
        [destruct (fvar (chws f)); [case_bool_decide; [discriminate|]|]|..];
        injection Hr as _ <-; simpl; rewrite lookup_insert_ne; congruence.
    + unfold process_ttf_worker, add_chws, load_ttfont in Hr. mrun. rewrite Ef in Hr.
      injection Hr as _ <-. reflexivity.
    + unfold process_ttf_worker, add_chws, load_ttfont in Hr. mrun. rewrite Ef in Hr.
      injection Hr as _ <-. reflexivity.
    + unfold process_ttf_worker, add_chws, load_ttfont in Hr. mrun. rewrite Ef in Hr.
      injection Hr as _ <-. reflexivity.
Qed.

(** On every run that returns normally, the font saved at [out_ttf] has
    the cmap subtables of the patched font, in the same number and order,
    with every codepoint of [EXCLUDED_CODEPOINTS] unmapped and every other
    codepoint mapped as before. *)
Theorem process_ttf_worker_cmap_filtered (chws : font -> font)
    (in_ttf out_ttf tmp : path) (f : font) (w w' : world) :
  files w !! in_ttf = Some (FontFile f) ->
  process_ttf_worker chws in_ttf out_ttf tmp w = (inr tt, w') ->
  exists h, files w' !! out_ttf = Some (FontFile h) /\
    length (cmap_tables h) = length (cmap_tables (chws f)) /\
    (forall i t k, cmap_tables (chws f) !! i = Some t ->
       exists t', cmap_tables h !! i = Some t' /\
         t' !! k = if bool_decide (k ∈ EXCLUDED_CODEPOINTS) then None else t !! k).
Proof.
  intros Hf Hr. destruct (process_ttf_worker_inr chws in_ttf out_ttf tmp f w w' Hf Hr) as [h Ht].
  destruct (process_ttf_worker_ok chws in_ttf out_ttf tmp f h w Hf Ht) as (d & evs & Hrun & _).
  rewrite Hrun in Hr. injection Hr as <-.
  exists h. split; [simpl; apply lookup_insert_eq|].
  rewrite (transform_result_cmap _ _ Ht). split; [simpl; apply length_map|].
  intros i t k Hi. apply delete_from_cmap_lookup. exact Hi.
Qed.

(** A patched font without 'fvar' takes the static path: the worker saves
    it with only its cmap filtered, after writing the intermediate file, and
    prints ADD_CHWS, SUBSET and TTF (no VFINST). *)
Theorem process_ttf_worker_static_font (chws : font -> font)
    (in_ttf out_ttf tmp : path) (f : font) (w : world) :
  files w !! in_ttf = Some (FontFile f) ->
  fvar (chws f) = None ->
  process_ttf_worker chws in_ttf out_ttf tmp w =
  (inr tt, mkWorld (<[out_ttf := FontFile (delete_from_cmap (chws f) EXCLUDED_CODEPOINTS)]>
                      (<[chws_output_path in_ttf tmp := FontFile (chws f)]> (files w)))
                   (dirs w ∪ list_to_set (ancestors (chws_output_path in_ttf tmp))
                           ∪ list_to_set (ancestors out_ttf))
                   (out w ++ [Print "ADD_CHWS" in_ttf; Print "SUBSET" (chws_output_path in_ttf tmp);
                              Print "TTF" out_ttf])).
Proof.
  intros Hf Hv. rewrite (process_ttf_worker_unfold chws in_ttf out_ttf tmp f w Hf).
  simpl. rewrite Hv. mrun. rewrite <- app_assoc. reflexivity.
Qed.

(** [unpack_ttc_worker] with an index past the last member raises
    [IndexError] after its UNTTC line, creating no file and no directory. *)
Theorem unpack_ttc_worker_index_out_of_range (in_ttc : path) (i : nat) (dst : path)
    (fonts : list font) (w : world) :
  files w !! in_ttc = Some (CollectionFile fonts) ->
  (length fonts <= i)%nat ->
  unpack_ttc_worker in_ttc i dst w =
  (inl (IndexError i), mkWorld (files w) (dirs w) (out w ++ [Print "UNTTC" dst])).
Proof.
  intros Hc Hi. unfold unpack_ttc_worker, load_ttcollection. mrun.
  rewrite Hc. simpl. rewrite lookup_ge_None_2 by exact Hi. reflexivity.
Qed.

(** [unpack_ttc] on a missing collection raises [FileNotFoundError] before
    any job is submitted; on a collection with no member it returns the empty
    list.  Either way it writes no file. *)
Theorem unpack_ttc_missing_or_empty (ord : list nat) (in_ttc out_dir : path) (w : world) :
  (files w !! in_ttc = None ->
   unpack_ttc ord in_ttc out_dir w =
   (inl (FileNotFoundError in_ttc), mkWorld (files w) (dirs w) (out w ++ [Print "UNTTC" in_ttc]))) /\
  (files w !! in_ttc = Some (CollectionFile []) -> ord ≡ₚ [] ->
   unpack_ttc ord in_ttc out_dir w =
   (inr [], mkWorld (files w) (dirs w) (out w ++ [Print "UNTTC" in_ttc]))).
Proof.
  split.
  - intros Hc. unfold unpack_ttc, load_ttcollection. mrun. rewrite Hc. reflexivity.
  - intros Hc Hp. apply Permutation_sym, Permutation_nil in Hp as ->.
    unfold unpack_ttc, load_ttcollection. mrun. rewrite Hc. reflexivity.
Qed.

(** [pack_ttc] writes at [out_ttc] the collection of the fonts read from
    [ttfs], in list order and with repetitions, and changes no other file. *)
Theorem pack_ttc_members_in_list_order (ttfs : list path) (fs : list font)
    (out_ttc : path) (w : world) :
  Forall2 (fun p f => files w !! p = Some (FontFile f)) ttfs fs ->
  pack_ttc ttfs out_ttc w =
  (inr tt, mkWorld (<[out_ttc := CollectionFile fs]> (files w))
                   (dirs w ∪ list_to_set (ancestors out_ttc)) (out w ++ [Print "TTC" out_ttc])).
Proof.
  intros Hall. unfold pack_ttc. unfold bind at 1, print, emit.
  set (w2 := mkWorld (files w) (dirs w) (out w ++ [Print "TTC" out_ttc])).
  unfold bind at 1. rewrite (load_all_ok ttfs fs w2 Hall). reflexivity.
Qed.

(** When a member path of [pack_ttc] is missing, it raises
    [FileNotFoundError] for the first missing path in list order, after its
    TTC line, and writes nothing: [out_ttc] is not created. *)
Theorem pack_ttc_missing_member (pre post : list path) (p : path) (fs : list font)
    (out_ttc : path) (w : world) :
  Forall2 (fun q f => files w !! q = Some (FontFile f)) pre fs ->
  files w !! p = None ->
  pack_ttc (pre ++ p :: post) out_ttc w =
  (inl (FileNotFoundError p), mkWorld (files w) (dirs w) (out w ++ [Print "TTC" out_ttc])).
Proof.
  intros Hpre Hp. unfold pack_ttc. unfold bind at 1, print, emit.
  set (w2 := mkWorld (files w) (dirs w) (out w ++ [Print "TTC" out_ttc])).
  unfold bind at 1. rewrite (load_all_missing pre post p fs w2 Hpre Hp). reflexivity.
Qed.

(** [is_ttc] only reads: it leaves the world as it was.  It raises
    [FileNotFoundError] on a missing file, and a file shorter than four
    bytes is never taken for a collection. *)
Theorem is_ttc_read_only (p : path) (w : world) :
  snd (is_ttc p w) = w /\
  (files w !! p = None -> fst (is_ttc p w) = inl (FileNotFoundError p)) /\
  (forall b, files w !! p = Some (RawFile b) -> (length b < 4)%nat ->
     fst (is_ttc p w) = inr false).
Proof.
  unfold is_ttc. mrun. split; [destruct (files w !! p); reflexivity|]. split.
  - intros H. rewrite H. reflexivity.
  - intros b H Hb. rewrite H. simpl. rewrite take_ge by lia.
    rewrite bool_decide_false; [reflexivity|]. intros ->. simpl in Hb. lia.
Qed.

(** [process_font] on a missing input raises [FileNotFoundError] from
    [is_ttc] and changes nothing: no file, no directory, no output line. *)
Theorem process_font_missing_input (chws : font -> font) (sched : path -> list nat)
    (in_font out_font tmp : path) (w : world) :
  files w !! in_font = None ->
  process_font chws sched in_font out_font tmp w = (inl (FileNotFoundError in_font), w).
Proof. intros H. unfold process_font, is_ttc. mrun. rewrite H. reflexivity. Qed.

(** When one member of a collection fails to transform, [process_ttc]
    raises (for the first failure in the interleaving) and never repacks: a
    path outside the staging directory, such as [out_ttc], keeps its former
    content. *)
Theorem process_ttc_member_failure (chws : font -> font) (sched : list nat)
    (in_ttc out_ttc tmp : path) (fonts : list font) (w : world) (i : nat) (f : font) (e : exc) :
  files w !! in_ttc = Some (CollectionFile fonts) ->
  sched ≡ₚ seq 0 (length fonts) ++ seq 0 (length fonts) ->
  fonts !! i = Some f -> transform_result (chws f) = inl e ->
  ~ prefix tmp out_ttc ->
  exists e' w', process_ttc chws sched in_ttc out_ttc tmp w = (inl e', w') /\
                files w' !! out_ttc = files w !! out_ttc.
Proof.
  intros Hc Hp Hf Ht Hpre.
  pose proof (run_sched_writes (prefix tmp) (unpack_and_process_step chws in_ttc tmp) [] sched
                (unpack_and_process_step_writes chws in_ttc tmp) w out_ttc Hpre) as Hfr.
  unfold process_ttc, load_ttcollection. unfold bind at 1 2. unfold read_file.
  rewrite Hc. unfold ret. unfold bind at 1.
  destruct (run_sched (unpack_and_process_step chws in_ttc tmp) [] sched w)
    as [[e'|[]] w1] eqn:Er.
  - exists e', w1. split; [reflexivity|]. exact Hfr.
  - exfalso.
    destruct (run_sched_inr chws in_ttc tmp fonts sched [] w w1) as [_ Hinv].
    { split; [exact Hc|]. intros j g _. simpl. split; lia. }
    { intros j Hj. rewrite Hp in Hj. apply elem_of_app in Hj as [Hj|Hj];
        apply elem_of_seq in Hj; lia. }
    { exact Er. }
    destruct (Hinv i f Hf) as [_ H2]. destruct H2 as [h Hh].
    + rewrite (count_occ_two sched (length fonts) i Hp); [lia|].
      apply lookup_lt_Some in Hf. exact Hf.
    + congruence.
Qed.

(** [process_font] changes no file outside the staging directory [tmp]
    except [out_font], whether it returns or raises. *)
Theorem process_font_writes_only (chws : font -> font) (sched : path -> list nat)
    (in_font out_font tmp : path) (w : world) (p : path) :
  ~ prefix tmp p -> p <> out_font ->
  files (snd (process_font chws sched in_font out_font tmp w)) !! p = files w !! p.
Proof.
  intros H1 H2. apply process_font_writes. intros [H|H]; contradiction.
Qed.


(** With a non-empty [--url], [main] does not build the module: the
    installer path is never written, whatever the run does. *)
Theorem main_url_skips_installer (chws : font -> font) (server : string -> response)
    (sched : path -> list nat) (u : string) (w : world) :
  u <> "" ->
  files (snd (main chws server sched (Some u) w)) !! installer_path = files w !! installer_path.
Proof.
  intros Hu. apply main_writes. simpl. rewrite bool_decide_false by exact Hu. simpl.
  intros [[k Hk]|[(v & _ & Hv)|[H _]]]; [discriminate | |discriminate].
  destruct (prefix_join_name ["system"; "fonts"] (url_basename v)) as [k Hk].
  rewrite <- Hv in Hk. discriminate.
Qed.

(** The semaphore never holds more than its capacity N, and every slot
    taken is given back: whenever no gated download is in flight, the
    counter is N again. *)
Theorem gate_slots_returned (N : nat) (url_arg : option string) (s : Gate.state) :
  Gate.reachable (Gate.init N (Gate.main_downloads url_arg)) s ->
  (Gate.sem_value s <= N)%nat /\
  (Gate.active_gated_downloads s = 0%nat -> Gate.sem_value s = N).
Proof.
  intros Hr. destruct (gate_invariant N _ s (main_downloads_waiting url_arg) Hr) as [H _].
  split; [lia|]. intros H0. lia.
Qed.

(** * Witnesses and counterexamples *)

Lemma main_teardown_on_success_only_witness :
  let futs := run_all (main_futures id sample_server sample_sched None) (mkWorld ∅ ∅ []) in
  fst futs = inr tt /\ temp_dir ∈ dirs (snd futs) /\
  exists w', main id sample_server sample_sched None (mkWorld ∅ ∅ []) = (inr tt, w') /\
             out w' = out (snd futs) ++ [Shutdown; Rmtree temp_dir].
Proof.
  intros futs.
  assert (Hr : run_all (main_futures id sample_server sample_sched None) (mkWorld ∅ ∅ [])
               = (inr tt, snd futs)) by (vm_compute; reflexivity).
  assert (Hd : temp_dir ∈ dirs (snd futs))
    by (apply (bool_decide_unpack _); vm_compute; reflexivity).
  split; [unfold futs; rewrite Hr; reflexivity|]. split; [exact Hd|].
  destruct (proj2 (main_teardown_on_success_only id sample_server sample_sched None
                     (mkWorld ∅ ∅ [])) (snd futs) Hr Hd) as (w' & Hm & Ho & _).
  exists w'. split; assumption.
Defined.

Lemma unpack_ttc_member_paths_witness :
  files sample_ttc_world !! ["in.ttc"] = Some (CollectionFile sample_members) /\
  [2; 0; 1]%nat ≡ₚ seq 0 (length sample_members) /\
  exists paths w', unpack_ttc [2; 0; 1]%nat ["in.ttc"] ["out"] sample_ttc_world = (inr paths, w') /\
                   length paths = 3%nat.
Proof.
  assert (Hc : files sample_ttc_world !! ["in.ttc"] = Some (CollectionFile sample_members))
    by reflexivity.
  assert (Hp : [2; 0; 1]%nat ≡ₚ seq 0 (length sample_members))
    by (apply (bool_decide_unpack _); vm_compute; reflexivity).
  split; [exact Hc|]. split; [exact Hp|].
  destruct (unpack_ttc_member_paths [2; 0; 1]%nat ["in.ttc"] ["out"] sample_members
              sample_ttc_world Hc Hp) as (paths & w' & Hr & Hl & _).
  exists paths, w'. split; [exact Hr | exact Hl].
Defined.

Lemma unpack_pack_roundtrip_witness :
  files sample_ttc_world !! ["in.ttc"] = Some (CollectionFile sample_members) /\
  [1; 2; 0]%nat ≡ₚ seq 0 (length sample_members) /\
  exists paths w1 w2,
    unpack_ttc [1; 2; 0]%nat ["in.ttc"] ["out"] sample_ttc_world = (inr paths, w1) /\
    pack_ttc paths ["out.ttc"] w1 = (inr tt, w2) /\
    files w2 !! ["out.ttc"] = Some (CollectionFile sample_members).
Proof.
  assert (Hc : files sample_ttc_world !! ["in.ttc"] = Some (CollectionFile sample_members))
    by reflexivity.
  assert (Hp : [1; 2; 0]%nat ≡ₚ seq 0 (length sample_members))
    by (apply (bool_decide_unpack _); vm_compute; reflexivity).
  split; [exact Hc|]. split; [exact Hp|].
  exact (unpack_pack_roundtrip [1; 2; 0]%nat ["in.ttc"] ["out"] ["out.ttc"] sample_members
           sample_ttc_world Hc Hp).
Defined.



(** A font whose 'wght' range is 900..1000 is clipped to the single value
    900 and fully instanced: the saved font has neither 'fvar' nor 'VVAR'. *)
Lemma full_instance_drops_fvar_and_vvar :
  (fun h => (fvar h, VVAR h)) <$>
    output_font (process_ttf_worker id ["in.ttf"] ["out.ttf"] ["temp"]
                   (sample_world (mkFont (cmap_tables sample_vf)
                                         (Some [mkAxis "wght" 900 900 1000])
                                         (VORG sample_vf) (VVAR sample_vf)
                                         (name_records sample_vf)))) ["out.ttf"]
  = Some (None, None).
Proof. vm_compute. reflexivity. Qed.

Lemma process_ttf_worker_fvar_needs_vorg_vvar_witness :
  files (sample_world sample_vf_no_vorg) !! ["in.ttf"] = Some (FontFile sample_vf_no_vorg) /\
  fvar (id sample_vf_no_vorg) <> None /\
  exists tag w',
    process_ttf_worker id ["in.ttf"] ["out.ttf"] ["temp"] (sample_world sample_vf_no_vorg)
    = (inl (KeyError tag), w').
Proof.
  assert (H1 : files (sample_world sample_vf_no_vorg) !! ["in.ttf"]
               = Some (FontFile sample_vf_no_vorg)) by reflexivity.
  assert (H2 : fvar (id sample_vf_no_vorg) <> None) by discriminate.
  split; [exact H1|]. split; [exact H2|].
  destruct (proj1 (process_ttf_worker_fvar_needs_vorg_vvar id ["in.ttf"] ["out.ttf"] ["temp"]
                     sample_vf_no_vorg (sample_world sample_vf_no_vorg) H1 H2)
              (or_introl eq_refl)) as (tag & w' & Hr & _).
  exists tag, w'. exact Hr.
Defined.

Lemma process_ttc_repack_after_all_transforms_witness :
  files sample_ttc_world !! ["in.ttc"] = Some (CollectionFile sample_members) /\
  [0; 1; 2; 2; 1; 0]%nat ≡ₚ seq 0 (length sample_members) ++ seq 0 (length sample_members) /\
  Forall2 (fun f h => transform_result (id f) = inr h) sample_members sample_transformed /\
  exists w',
    process_ttc id [0; 1; 2; 2; 1; 0]%nat ["in.ttc"] ["out.ttc"] ["temp"] sample_ttc_world
    = (inr tt, w') /\
    files w' !! ["out.ttc"] = Some (CollectionFile sample_transformed).
Proof.
  assert (Hc : files sample_ttc_world !! ["in.ttc"] = Some (CollectionFile sample_members))
    by reflexivity.
  assert (Hp : [0; 1; 2; 2; 1; 0]%nat ≡ₚ seq 0 (length sample_members) ++ seq 0 (length sample_members))
    by (apply (bool_decide_unpack _); vm_compute; reflexivity).
  assert (Hh : Forall2 (fun f h => transform_result (id f) = inr h)
                 sample_members sample_transformed)
    by (repeat constructor; vm_compute; reflexivity).
  split; [exact Hc|]. split; [exact Hp|]. split; [exact Hh|].
  destruct (process_ttc_repack_after_all_transforms id [0; 1; 2; 2; 1; 0]%nat ["in.ttc"]
              ["out.ttc"] ["temp"] sample_members sample_transformed sample_ttc_world Hc Hp Hh)
    as (w' & L & Hr & _ & _ & Ho).
  exists w'. split; assumption.
Defined.

(** Runs of the default [main] with gate capacity 2.  The two asset
    downloads take both slots and the installer download starts without the
    gate: three downloads in flight. *)
Lemma default_run_all_active :
  Gate.reachable (Gate.init 2 (Gate.main_downloads None))
    (Gate.mkState 0 [Gate.mkTask true Gate.Active; Gate.mkTask true Gate.Active;
                     Gate.mkTask false Gate.Active]).
Proof.
  set (W := Gate.mkTask true Gate.Waiting). set (A := Gate.mkTask true Gate.Active).
  set (UW := Gate.mkTask false Gate.Waiting). set (UA := Gate.mkTask false Gate.Active).
  assert (E0 : Gate.init 2 (Gate.main_downloads None) = Gate.mkState 2 [W; W; UW])
    by reflexivity.
  assert (S1 : Gate.step (Gate.mkState 2 [W; W; UW]) (Gate.mkState 1 [A; W; UW]))
    by exact (Gate.step_acquire 2 [W; W; UW] 0 eq_refl ltac:(lia)).
  assert (S2 : Gate.step (Gate.mkState 1 [A; W; UW]) (Gate.mkState 0 [A; A; UW]))
    by exact (Gate.step_acquire 1 [A; W; UW] 1 eq_refl ltac:(lia)).
  assert (S3 : Gate.step (Gate.mkState 0 [A; A; UW]) (Gate.mkState 0 [A; A; UA]))
    by exact (Gate.step_start_ungated 0 [A; A; UW] 2 eq_refl).
  rewrite E0. eapply Gate.reach_step; [|exact S3].
  eapply Gate.reach_step; [|exact S2].
  eapply Gate.reach_step; [|exact S1]. apply Gate.reach_refl.
Qed.

(** The first asset download takes a slot. *)
Lemma default_run_one_slot_taken :
  Gate.reachable (Gate.init 2 (Gate.main_downloads None))
    (Gate.mkState 1 [Gate.mkTask true Gate.Active; Gate.mkTask true Gate.Waiting;
                     Gate.mkTask false Gate.Waiting]).
Proof.
  assert (E0 : Gate.init 2 (Gate.main_downloads None) =
               Gate.mkState 2 [Gate.mkTask true Gate.Waiting; Gate.mkTask true Gate.Waiting;
                               Gate.mkTask false Gate.Waiting]) by reflexivity.
  rewrite E0. eapply Gate.reach_step; [apply Gate.reach_refl|].
  exact (Gate.step_acquire 2 [Gate.mkTask true Gate.Waiting; Gate.mkTask true Gate.Waiting;
                              Gate.mkTask false Gate.Waiting] 0 eq_refl ltac:(lia)).
Qed.

(** ... and finishes, giving the slot back. *)
Lemma default_run_slot_returned :
  Gate.reachable (Gate.init 2 (Gate.main_downloads None))
    (Gate.mkState 2 [Gate.mkTask true Gate.Finished; Gate.mkTask true Gate.Waiting;
                     Gate.mkTask false Gate.Waiting]).
Proof.
  eapply Gate.reach_step; [apply default_run_one_slot_taken|].
  exact (Gate.step_finish 1 [Gate.mkTask true Gate.Active; Gate.mkTask true Gate.Waiting;
                             Gate.mkTask false Gate.Waiting] 0 true eq_refl).
Qed.

Lemma main_gated_downloads_bounded_witness :
  (Gate.active_gated_downloads
     (Gate.mkState 0 [Gate.mkTask true Gate.Active; Gate.mkTask true Gate.Active;
                      Gate.mkTask false Gate.Active]) <= 2)%nat /\
  (Gate.active_downloads
     (Gate.mkState 0 [Gate.mkTask true Gate.Active; Gate.mkTask true Gate.Active;
                      Gate.mkTask false Gate.Active]) <= 3)%nat /\
  Gate.active_downloads
     (Gate.mkState 0 [Gate.mkTask true Gate.Active; Gate.mkTask true Gate.Active;
                      Gate.mkTask false Gate.Active]) = 3%nat.
Proof.
  destruct (main_gated_downloads_bounded 2 None _ default_run_all_active) as [H1 H2].
  split; [exact H1|]. split; [exact H2|reflexivity].
Defined.

(** C8 fails for the default run: with capacity 2, the two asset downloads
    hold both slots while the installer download, started without the gate,
    is in flight too: three downloads at once. *)
Lemma default_run_three_downloads :
  ~ (forall s, Gate.reachable (Gate.init 2 (Gate.main_downloads None)) s ->
               (Gate.active_downloads s <= 2)%nat).
Proof.
  intros H. specialize (H _ default_run_all_active). vm_compute in H. lia.
Qed.

Lemma process_ttf_worker_writes_two_paths_witness :
  files (snd (process_ttf_worker id ["in.ttf"] ["out.ttf"] ["temp"] (sample_world sample_vf)))
    !! ["in.ttf"] = Some (FontFile sample_vf) /\
  exists e w', process_ttf_worker id ["in.ttf"] ["out.ttf"] ["temp"]
                 (sample_world sample_vf_no_vorg) = (inl e, w') /\
               files w' !! ["out.ttf"] = None.
Proof.
  split.
  - rewrite (proj1 (process_ttf_worker_writes_two_paths id ["in.ttf"] ["out.ttf"] ["temp"]
                      (sample_world sample_vf)) ["in.ttf"]);
      [reflexivity | apply (bool_decide_unpack _); vm_compute; reflexivity
                   | apply (bool_decide_unpack _); vm_compute; reflexivity].
  - set (r := process_ttf_worker id ["in.ttf"] ["out.ttf"] ["temp"] (sample_world sample_vf_no_vorg)).
    assert (E : r = (inl (KeyError "VORG"), snd r)) by (vm_compute; reflexivity).
    exists (KeyError "VORG"), (snd r). split; [exact E|].
    rewrite (proj2 (process_ttf_worker_writes_two_paths id ["in.ttf"] ["out.ttf"] ["temp"]
                      (sample_world sample_vf_no_vorg)) _ _ E);
      [reflexivity | apply (bool_decide_unpack _); vm_compute; reflexivity].
Defined.

Lemma process_ttf_worker_cmap_filtered_witness :
  exists w' h,
    process_ttf_worker id ["in.ttf"] ["out.ttf"] ["temp"] (sample_world sample_vf) = (inr tt, w') /\
    files w' !! ["out.ttf"] = Some (FontFile h) /\ length (cmap_tables h) = 1%nat.
Proof.
  set (r := process_ttf_worker id ["in.ttf"] ["out.ttf"] ["temp"] (sample_world sample_vf)).
  assert (E : r = (inr tt, snd r)) by (vm_compute; reflexivity).
  destruct (process_ttf_worker_cmap_filtered id ["in.ttf"] ["out.ttf"] ["temp"] sample_vf
              (sample_world sample_vf) (snd r) eq_refl E) as (h & Ho & Hl & _).
  exists (snd r), h. split; [exact E|]. split; [exact Ho|]. exact Hl.
Defined.

Lemma process_ttf_worker_static_font_witness :
  fvar (id sample_static) = None /\
  fst (process_ttf_worker id ["in.ttf"] ["out.ttf"] ["temp"] (sample_world sample_static)) = inr tt.
Proof.
  split; [reflexivity|].
  rewrite (process_ttf_worker_static_font id ["in.ttf"] ["out.ttf"] ["temp"] sample_static
             (sample_world sample_static) eq_refl eq_refl).
  reflexivity.
Defined.

Lemma unpack_ttc_worker_index_out_of_range_witness :
  (length sample_members <= 3)%nat /\
  fst (unpack_ttc_worker ["in.ttc"] 3 ["m.ttf"] sample_ttc_world) = inl (IndexError 3).
Proof.
  assert (H : (length sample_members <= 3)%nat) by (simpl; lia).
  split; [exact H|].
  rewrite (unpack_ttc_worker_index_out_of_range ["in.ttc"] 3 ["m.ttf"] sample_members
             sample_ttc_world eq_refl H).
  reflexivity.
Defined.

Lemma unpack_ttc_missing_or_empty_witness :
  fst (unpack_ttc [] ["x.ttc"] ["out"] (mkWorld ∅ ∅ [])) = inl (FileNotFoundError ["x.ttc"]) /\
  fst (unpack_ttc [] ["e.ttc"] ["out"] (mkWorld {[ ["e.ttc"] := CollectionFile [] ]} ∅ []))
    = inr [].
Proof.
  assert (H1 : files (mkWorld ∅ ∅ []) !! ["x.ttc"] = None) by (vm_compute; reflexivity).
  assert (H2 : files (mkWorld {[ ["e.ttc"] := CollectionFile [] ]} ∅ []) !! ["e.ttc"]
               = Some (CollectionFile [])) by (vm_compute; reflexivity).
  split.
  - rewrite (proj1 (unpack_ttc_missing_or_empty [] ["x.ttc"] ["out"] (mkWorld ∅ ∅ [])) H1).
    reflexivity.
  - rewrite (proj2 (unpack_ttc_missing_or_empty [] ["e.ttc"] ["out"]
                      (mkWorld {[ ["e.ttc"] := CollectionFile [] ]} ∅ [])) H2
               (Permutation_refl [])).
    reflexivity.
Defined.

(** The same file packed twice gives a two-member collection. *)
Lemma pack_ttc_members_in_list_order_witness :
  Forall2 (fun p f => files (sample_world sample_static) !! p = Some (FontFile f))
          [["in.ttf"]; ["in.ttf"]] [sample_static; sample_static] /\
  files (snd (pack_ttc [["in.ttf"]; ["in.ttf"]] ["out.ttc"] (sample_world sample_static)))
    !! ["out.ttc"] = Some (CollectionFile [sample_static; sample_static]).
Proof.
  assert (H : Forall2 (fun p f => files (sample_world sample_static) !! p = Some (FontFile f))
                      [["in.ttf"]; ["in.ttf"]] [sample_static; sample_static])
    by (repeat constructor).
  split; [exact H|].
  rewrite (pack_ttc_members_in_list_order _ _ ["out.ttc"] _ H).
  simpl. apply lookup_insert_eq.
Defined.

Lemma pack_ttc_missing_member_witness :
  fst (pack_ttc [["in.ttf"]; ["b.ttf"]] ["out.ttc"] (sample_world sample_static))
    = inl (FileNotFoundError ["b.ttf"]).
Proof.
  assert (H : Forall2 (fun q f => files (sample_world sample_static) !! q = Some (FontFile f))
                      [["in.ttf"]] [sample_static]) by (repeat constructor).
  exact (f_equal fst (pack_ttc_missing_member [["in.ttf"]] [] ["b.ttf"] [sample_static]
                        ["out.ttc"] (sample_world sample_static) H eq_refl)).
Defined.

Lemma is_ttc_read_only_witness :
  fst (is_ttc ["x"] (mkWorld ∅ ∅ [])) = inl (FileNotFoundError ["x"]) /\
  fst (is_ttc ["x"] (mkWorld {[ ["x"] := RawFile [116; 116; 99] ]} ∅ [])) = inr false.
Proof.
  assert (H : files (mkWorld ∅ ∅ []) !! ["x"] = None) by (vm_compute; reflexivity).
  split.
  - exact (proj1 (proj2 (is_ttc_read_only ["x"] (mkWorld ∅ ∅ []))) H).
  - exact (proj2 (proj2 (is_ttc_read_only ["x"] (mkWorld {[ ["x"] := RawFile [116; 116; 99] ]} ∅ [])))
             [116; 116; 99] eq_refl ltac:(simpl; lia)).
Defined.

Lemma process_font_missing_input_witness :
  process_font id sample_sched ["a.ttf"] ["out.ttf"] ["temp"] (mkWorld ∅ ∅ [])
  = (inl (FileNotFoundError ["a.ttf"]), mkWorld ∅ ∅ []).
Proof.
  assert (H : files (mkWorld ∅ ∅ []) !! ["a.ttf"] = None) by (vm_compute; reflexivity).
  exact (process_font_missing_input id sample_sched ["a.ttf"] ["out.ttf"] ["temp"] _ H).
Defined.

Lemma process_ttc_member_failure_witness :
  exists e' w', process_ttc id [0; 1; 1; 0]%nat ["in.ttc"] ["out.ttc"] ["temp"]
                  sample_failing_ttc_world = (inl e', w') /\
                files w' !! ["out.ttc"] = None.
Proof.
  assert (Hp : [0; 1; 1; 0]%nat ≡ₚ seq 0 2 ++ seq 0 2)
    by (apply (bool_decide_unpack _); vm_compute; reflexivity).
  assert (Ht : transform_result (id sample_vf_no_vorg) = inl (KeyError "VORG"))
    by (vm_compute; reflexivity).
  assert (Hpre : ~ prefix ["temp"] ["out.ttc"])
    by (apply (bool_decide_unpack _); vm_compute; reflexivity).
  destruct (process_ttc_member_failure id [0; 1; 1; 0]%nat ["in.ttc"] ["out.ttc"] ["temp"]
              [sample_static; sample_vf_no_vorg] sample_failing_ttc_world 1 sample_vf_no_vorg
              (KeyError "VORG") eq_refl Hp eq_refl Ht Hpre) as (e' & w' & Hr & Ho).
  exists e', w'. split; [exact Hr|]. rewrite Ho. reflexivity.
Defined.

Lemma process_font_writes_only_witness :
  files (snd (process_font id sample_sched ["in.ttc"] ["out.ttc"] ["temp"] sample_ttc_world))
    !! ["in.ttc"] = Some (CollectionFile sample_members).
Proof.
  rewrite (process_font_writes_only id sample_sched ["in.ttc"] ["out.ttc"] ["temp"]
             sample_ttc_world ["in.ttc"]);
    [reflexivity | apply (bool_decide_unpack _); vm_compute; reflexivity
                 | apply (bool_decide_unpack _); vm_compute; reflexivity].
Defined.


Lemma main_url_skips_installer_witness :
  files (snd (main id sample_server sample_sched (Some sample_url) (mkWorld ∅ ∅ [])))
    !! installer_path = None.
Proof.
  rewrite (main_url_skips_installer id sample_server sample_sched sample_url (mkWorld ∅ ∅ []));
    [reflexivity | discriminate].
Defined.

Lemma gate_slots_returned_witness :
  (Gate.sem_value
     (Gate.mkState 1 [Gate.mkTask true Gate.Active; Gate.mkTask true Gate.Waiting;
                      Gate.mkTask false Gate.Waiting]) <= 2)%nat /\
  Gate.sem_value
     (Gate.mkState 2 [Gate.mkTask true Gate.Finished; Gate.mkTask true Gate.Waiting;
                      Gate.mkTask false Gate.Waiting]) = 2%nat.
Proof.
  split.
  - exact (proj1 (gate_slots_returned 2 None _ default_run_one_slot_taken)).
  - exact (proj2 (gate_slots_returned 2 None _ default_run_slot_returned) eq_refl).
Defined.
